(** * GeoHash: a geohash codec and a reference-counted prefix trie

    Shallow embedding of [tire.go] and [types.go] (package GeoHash) and the
    properties of its specification, settled against the code.

    Conventions of the embedding.
    - A Go [byte] is an [ascii]; its numeric value is [byte_val]; byte
      arithmetic wraps modulo 256 ([wrap8]).  A Go [string] is a [string]
      (a sequence of bytes).  A Go [int] is a [Z] (no operation of the
      program comes near the 64-bit bounds).
    - A run-time panic (index out of range, nil dereference, an explicit
      [panic(...)]) ends the call and, nothing in the package recovering
      from it, the program: operations return a [result], either [Ok v] or
      [Panic msg], and a panic carries no state.
    - The trie is a tree of heap nodes reached through pointers.  Nodes are
      only ever allocated by [GeoAdd] ([&geoTireNode{}]) and stored in exactly
      one slot of one parent, so there is no sharing: a node is embedded as
      a value, a nil pointer as [None], and mutation through a pointer as
      the rebuilding of the path from the root to that node.
    - The reader/writer lock is not modelled: every operation holds it for
      its whole critical section, and the embedding is sequential. *)

From Stdlib Require Import ZArith QArith Lqa String Ascii.
From stdpp Require Import base list strings gmap.

Local Open Scope string_scope.
Local Open Scope list_scope.
Local Open Scope Z_scope.

(** ** Results and errors *)

Inductive result (A : Type) : Type :=
| Ok (a : A)
| Panic (msg : string).
Arguments Ok {A} a.
Arguments Panic {A} msg.

#[global] Instance result_ret : MRet result := fun A a => Ok a.

#[global] Instance result_bind : MBind result := fun A B f r =>
  match r with
  | Ok a => f a
  | Panic msg => Panic msg
  end.

(** [strconv.NumError] carries one of the two sentinel errors of strconv. *)
Inductive numError : Type := ErrSyntax | ErrRange.

(** The error values of the package: its own [ErrInvalidHash], and whatever
    [strconv.ParseInt] hands back to [GeoHash]. *)
Inductive error : Type :=
| ErrInvalidHash
| NumError (e : numError).

(** [err.Error()] *)
Definition Error_ (err : error) : string :=
  match err with
  | ErrInvalidHash => "invalid hash"
  | NumError ErrSyntax => "strconv.ParseInt: invalid syntax"
  | NumError ErrRange => "strconv.ParseInt: value out of range"
  end.

(** ** Bytes *)

Definition byte_val (c : ascii) : Z := Z.of_N (N_of_ascii c).

Definition wrap8 (z : Z) : Z := z mod 256.

(** ** types.go *)

(** A [float64]: a finite value (a rational), an infinity, or NaN.  The
    program only ever compares a coordinate with a midpoint.  The midpoints
    themselves are computed exactly in binary64: within 20 halvings of
    [-180,180] or [-90,90] every bound is a multiple of 45 * 2^-17 below
    2^8, so [(start + end) / 2] never rounds, and the bounds are modelled as
    rationals. *)
Inductive float64 : Type :=
| Fin (q : Q)
| PInf
| NInf
| NaN.

Record Points : Type := mkPoints { Longitude : float64; Latitude : float64 }.

(** ** The alphabet, tire.go:200-221 *)

Definition Base32 : list ascii :=
  ["0"; "1"; "2"; "3"; "4"; "5"; "6"; "7"; "8"; "9";
   "B"; "C"; "D"; "E"; "F"; "G"; "H"; "J"; "K"; "M"; "N"; "P"; "Q";
   "R"; "S"; "T"; "U"; "V"; "W"; "X"; "Y"; "Z"]%char.

Definition in_range (lo hi bits : ascii) : bool :=
  (byte_val lo <=? byte_val bits) && (byte_val bits <=? byte_val hi).

(** [bits - 'B' + 26] is byte arithmetic, converted to [int] afterwards. *)
Definition base32ToIndex (bits : ascii) : Z :=
  if in_range "0" "9" bits then
    wrap8 (byte_val bits - byte_val "0")
  else if in_range "B" "H" bits then
    wrap8 (wrap8 (byte_val bits - byte_val "B") + 26)
  else if in_range "J" "K" bits then
    wrap8 (wrap8 (byte_val bits - byte_val "J") + 33)
  else if in_range "M" "N" bits then
    wrap8 (wrap8 (byte_val bits - byte_val "J") + 35)
  else if in_range "P" "Z" bits then
    wrap8 (wrap8 (byte_val bits - byte_val "J") + 37)
  else -1.

(** Indexing a slice or a string: out of range (negative included) panics. *)
Definition index_panic (i : Z) : string := "index out of range".

Definition at_index {A : Type} (l : list A) (i : Z) : result A :=
  if (0 <=? i) && (i <? Z.of_nat (length l)) then
    match l !! Z.to_nat i with
    | Some x => Ok x
    | None => Panic (index_panic i)
    end
  else Panic (index_panic i).

Definition str_index (s : string) (i : Z) : result ascii :=
  at_index (list_ascii_of_string s) i.

(** ** Bit generation, tire.go:223-236 *)

(** [val < mid] on float64, [mid] finite: false on NaN. *)
Definition float_lt (val : float64) (mid : Q) : bool :=
  match val with
  | Fin q => negb (Qle_bool mid q)
  | PInf => false
  | NInf => true
  | NaN => false
  end.

(** One call of [getBinaryBits] up to its recursive call: the byte written
    to the builder and the narrowed interval. *)
Definition halve (val : float64) (start end_ : Q) : ascii * Q * Q :=
  let mid := ((start + end_) / 2)%Q in
  if float_lt val mid then ("0"%char, start, mid) else ("1"%char, mid, end_).

(** The builder [bits] is threaded as the string written so far.  The
    recursion of the source stops on [bits.Len() >= 20]; [n] counts the calls
    that may still follow and is set by [getBinaryBits] to the number the
    test allows, see [getBinaryBits_eq]. *)
Fixpoint getBinaryBits_rec (n : nat) (bits : string) (val : float64)
    (start end_ : Q) : string :=
  let '(b, start', end') := halve val start end_ in
  let bits' := bits +:+ String b "" in
  if 20 <=? Z.of_nat (String.length bits') then bits'
  else match n with
       | O => bits'
       | S n' => getBinaryBits_rec n' bits' val start' end'
       end.

Definition getBinaryBits (bits : string) (val : float64) (start end_ : Q) : string :=
  getBinaryBits_rec (19 - String.length bits) bits val start end_.

(** ** strconv.ParseInt(s, 2, 64), as the Go library documents it *)

Fixpoint parse_bits (s : string) (acc : Z) : Z + numError :=
  match s with
  | "" => inl acc
  | String c rest =>
      if Ascii.eqb c "0" then parse_bits rest (2 * acc)
      else if Ascii.eqb c "1" then parse_bits rest (2 * acc + 1)
      else inr ErrSyntax
  end.

Definition ParseUint2 (s : string) : Z + numError :=
  match s with
  | "" => inr ErrSyntax
  | _ => match parse_bits s 0 with
         | inl v => if 2 ^ 64 <=? v then inr ErrRange else inl v
         | inr e => inr e
         end
  end.

Definition ParseInt2 (s : string) : Z + numError :=
  match s with
  | "" => inr ErrSyntax
  | String c rest =>
      let neg := Ascii.eqb c "-" in
      let s' := if Ascii.eqb c "+" || neg then rest else s in
      match ParseUint2 s' with
      | inr e => inr e
      | inl un =>
          if negb neg && (2 ^ 63 <=? un) then inr ErrRange
          else if neg && (2 ^ 63 <? un) then inr ErrRange
          else inl (if neg then - un else un)
      end
  end.

(** ** GeoHash, tire.go:156-182 *)

(** The loop [for i := 0; i < 40; i++], [n] iterations left.  [%] is Go's
    remainder ([Z.rem]) and [>>] its arithmetic shift ([Z.shiftr]). *)
Fixpoint GeoHash_loop (n : nat) (i : Z) (lngBits latBits : string)
    (geoHash fiveBitsTmp : string) : result (string * option error) :=
  match n with
  | O => Ok (geoHash, None)
  | S n' =>
      fiveBitsTmp ←
        (if Z.rem i 1 =? 1 then
           c ← str_index lngBits (Z.shiftr (i - 1) 1);
           mret (fiveBitsTmp +:+ String c "")
         else if Z.rem i 2 =? 0 then
           c ← str_index latBits (Z.shiftr (i - 1) 1);
           mret (fiveBitsTmp +:+ String c "")
         else mret fiveBitsTmp);
      if negb (Z.rem i 5 =? 0) then
        GeoHash_loop n' (i + 1) lngBits latBits geoHash fiveBitsTmp
      else
        match ParseInt2 fiveBitsTmp with
        | inr err => Ok ("", Some (NumError err))
        | inl val =>
            b ← at_index Base32 val;
            GeoHash_loop n' (i + 1) lngBits latBits (geoHash +:+ String b "") ""
        end
  end.

Definition GeoHash (points : Points) : result (string * option error) :=
  let lngBits := getBinaryBits "" (Longitude points) (-180) 180 in
  let latBits := getBinaryBits "" (Latitude points) (-90) 90 in
  GeoHash_loop 40 0 lngBits latBits "" "".

(** ** GeoDistance, tire.go:195-198 *)

Definition GeoDistance (points points2 : Points) : result (option error * float64) :=
  Panic "implement me".

(** ** The trie, tire.go:15-71 *)

(** [GeoEntry]: the map from a code to the points stored under it ([None] is
    the nil map of a fresh entry), and the field [Hash], which no code of the
    package ever assigns. *)
Record GeoEntry : Type := mkGeoEntry {
  Points_ : option (gmap string (list Points));
  Hash : string
}.

Definition GeoEntry_add (g : GeoEntry) (p : Points) (hash : string) : GeoEntry :=
  let m := match Points_ g with
           | None => ∅
           | Some m => m
           end in
  mkGeoEntry (Some (<[hash := default [] (m !! hash) ++ [p]]> m)) (Hash g).

Definition GeoEntry_get (g : GeoEntry) (hash : string) : list Points :=
  match Points_ g with
  | None => []
  | Some m => default [] (m !! hash)
  end.

#[local] Set Warnings "-register-all".

(** [geoTireNode]: 32 child slots ([None] is a nil pointer), the passage
    count, the terminal flag and the embedded entry. *)
Inductive geoTireNode : Type :=
| mkNode (children : list (option geoTireNode)) (passCnt : Z) (end_ : bool)
         (entry : GeoEntry).

Definition children (g : geoTireNode) : list (option geoTireNode) :=
  let '(mkNode cs _ _ _) := g in cs.
Definition passCnt (g : geoTireNode) : Z :=
  let '(mkNode _ n _ _) := g in n.
Definition end_ (g : geoTireNode) : bool :=
  let '(mkNode _ _ e _) := g in e.
Definition entry (g : geoTireNode) : GeoEntry :=
  let '(mkNode _ _ _ en) := g in en.

Definition set_children (g : geoTireNode) (cs : list (option geoTireNode)) :=
  mkNode cs (passCnt g) (end_ g) (entry g).
Definition set_passCnt (g : geoTireNode) (n : Z) :=
  mkNode (children g) n (end_ g) (entry g).
Definition set_end (g : geoTireNode) (e : bool) :=
  mkNode (children g) (passCnt g) e (entry g).
Definition set_entry (g : geoTireNode) (en : GeoEntry) :=
  mkNode (children g) (passCnt g) (end_ g) en.

(** [&geoTireNode{}] *)
Definition newNode : geoTireNode :=
  mkNode (replicate 32 None) 0 false (mkGeoEntry None "").

(** [move.children[index]]: the array has 32 slots, any other index panics. *)
Definition child_at (move : geoTireNode) (index : Z) : result (option geoTireNode) :=
  at_index (children move) index.

(** [move.children[index] = c] *)
Definition set_child (move : geoTireNode) (index : Z) (c : option geoTireNode) :=
  set_children move (<[Z.to_nat index := c]> (children move)).

(** [dfs], tire.go:22-40.  The third component is what the call writes to
    the log. *)
Fixpoint dfs (g : geoTireNode) : list GeoEntry * option error * list string :=
  let entries := if end_ g then [entry g] else [] in
  (fix loop (cs : list (option geoTireNode)) (entries : list GeoEntry)
       (log : list string) {struct cs} :=
     match cs with
     | [] => (entries, None, log)
     | None :: cs' => loop cs' entries log
     | Some c :: cs' =>
         match dfs c with
         | (childEntries, Some err, log') =>
             (entries, Some err, log ++ log' ++ [Error_ err +:+ " dfs error"])
         | (childEntries, None, log') =>
             loop cs' (entries ++ childEntries) (log ++ log')
         end
     end) (children g) entries [].

Record TireTreeGeoService : Type := mkService { root : geoTireNode }.

Definition NewTireTreeGeoService : TireTreeGeoService := mkService newNode.

(** ** get, tire.go:115-125 *)

Fixpoint get_from (move : geoTireNode) (hash : string)
  : result (option geoTireNode * option error) :=
  match hash with
  | "" => Ok (Some move, None)
  | String c rest =>
      let index := base32ToIndex c in
      if index =? -1 then Ok (None, Some ErrInvalidHash)
      else
        slot ← child_at move index;
        match slot with
        | None => Ok (None, Some ErrInvalidHash)
        | Some ch => get_from ch rest
        end
  end.

Definition get (t : TireTreeGeoService) (hash : string) :=
  get_from (root t) hash.

(** ** GeoPosition, tire.go:101-113 *)

Definition GeoPosition (t : TireTreeGeoService) (hash : string)
  : result (list Points * option error) :=
  '(targets, err) ← get t hash;
  match err with
  | Some e => Ok ([], Some e)
  | None =>
      match targets with
      | None => Ok ([], None)
      | Some tg =>
          if negb (end_ tg) then Ok ([], None)
          else Ok (GeoEntry_get (entry tg) hash, None)
      end
  end.

(** ** FindByPrefix, tire.go:184-193 *)

Definition FindByPrefix (t : TireTreeGeoService) (prefix : string)
  : result (list GeoEntry * option error * list string) :=
  '(target, err) ← get t prefix;
  match err, target with
  | Some e, _ => Ok ([], Some e, [])
  | None, None => Ok ([], None, [])
  | None, Some tg => Ok (dfs tg)
  end.

(** ** GeoDel, tire.go:73-99 *)

(** The loop of [GeoDel] from the node [move] on, rebuilding [move]. *)
Fixpoint del_walk (move : geoTireNode) (hash : string) : result geoTireNode :=
  match hash with
  | "" => Ok (set_end move false)
  | String c rest =>
      let index := base32ToIndex c in
      slot ← child_at move index;
      match slot with
      | None => Panic "nil pointer dereference"
      | Some ch =>
          let ch := set_passCnt ch (passCnt ch - 1) in
          if passCnt ch =? 0 then Ok (set_child move index None)
          else
            ch' ← del_walk ch rest;
            Ok (set_child move index (Some ch'))
      end
  end.

Definition GeoDel (t : TireTreeGeoService) (hash : string)
  : result (TireTreeGeoService * (bool * option error)) :=
  '(target, err) ← get t hash;
  match err with
  | Some e => Ok (t, (false, Some e))
  | None =>
      match target with
      | None => Ok (t, (false, Some ErrInvalidHash))
      | Some tg =>
          if negb (end_ tg) then Ok (t, (false, Some ErrInvalidHash))
          else
            r ← del_walk (root t) hash;
            Ok (mkService r, (true, None))
      end
  end.

(** ** GeoAdd, tire.go:127-154 *)

(** A write through the pointer [get] returned: the node at the end of the
    path of [hash] is replaced by [f] of it. *)
Fixpoint update_target (move : geoTireNode) (hash : string)
    (f : geoTireNode -> geoTireNode) : geoTireNode :=
  match hash with
  | "" => f move
  | String c rest =>
      let index := base32ToIndex c in
      match children move !! Z.to_nat index with
      | Some (Some ch) => set_child move index (Some (update_target ch rest f))
      | _ => move
      end
  end.

(** The insertion loop from the node [move] on, and the two statements that
    follow it; [rest] is what is left of [geoHash]. *)
Fixpoint add_walk (move : geoTireNode) (rest : string) (points : Points)
    (geoHash : string) : result geoTireNode :=
  match rest with
  | "" => Ok (set_entry (set_end move true)
                (GeoEntry_add (entry move) points geoHash))
  | String c rest' =>
      let index := base32ToIndex c in
      slot ← child_at move index;
      let ch := match slot with
                | None => newNode
                | Some ch => ch
                end in
      let ch := set_passCnt ch (passCnt ch + 1) in
      ch' ← add_walk ch rest' points geoHash;
      Ok (set_child move index (Some ch'))
  end.

(** The critical section of [GeoAdd] (lines 132-153), for the code
    [geoHash] that [GeoHash] returned. *)
Definition GeoAdd_locked (t : TireTreeGeoService) (points : Points)
    (geoHash : string) : result (TireTreeGeoService * (bool * option error)) :=
  '(target, err) ← get t geoHash;
  let found := match target with
               | Some tg => end_ tg
               | None => false
               end in
  if found then
    Ok (mkService (update_target (root t) geoHash
                     (fun tg => set_entry tg (GeoEntry_add (entry tg) points geoHash))),
        (true, err))
  else
    r ← add_walk (root t) geoHash points geoHash;
    Ok (mkService r, (true, err)).

Definition GeoAdd (t : TireTreeGeoService) (points : Points)
  : result (TireTreeGeoService * (bool * option error)) :=
  '(geoHash, err) ← GeoHash points;
  match err with
  | Some e => Ok (t, (false, Some e))
  | None => GeoAdd_locked t points geoHash
  end.

(** ** The encoder as the specification words it

    Section 4.1 of the specification: 20 halvings per axis, bit 1 iff the
    coordinate is at least the midpoint; longitude bits at the even and
    latitude bits at the odd positions of a 40-bit stream; eight groups of
    five bits, most significant first, each mapped through the table.  It is
    what [GeoHash] is compared with. *)
Module Spec.

Fixpoint axis_bits (n : nat) (q lo hi : Q) : list bool :=
  match n with
  | O => []
  | S n' =>
      let mid := ((lo + hi) / 2)%Q in
      if Qle_bool mid q then true :: axis_bits n' q mid hi
      else false :: axis_bits n' q lo mid
  end.

Fixpoint interleave (lng lat : list bool) : list bool :=
  match lng, lat with
  | x :: lng', y :: lat' => x :: y :: interleave lng' lat'
  | _, _ => []
  end.

Fixpoint groups5 (n : nat) (bits : list bool) : list (list bool) :=
  match n with
  | O => []
  | S n' => take 5 bits :: groups5 n' (drop 5 bits)
  end.

Definition value (g : list bool) : Z :=
  fold_left (fun acc (b : bool) => 2 * acc + (if b then 1 else 0)) g 0.

Definition symbol (g : list bool) : ascii :=
  default "0"%char (Base32 !! Z.to_nat (value g)).

Definition in_interval (q lo hi : Q) : bool := Qle_bool lo q && Qle_bool q hi.

(** [None] stands for the failure [OutOfRange]. *)
Definition encode (lng lat : Q) : option string :=
  if in_interval lng (-180) 180 && in_interval lat (-90) 90 then
    Some (string_of_list_ascii
            (map symbol (groups5 8 (interleave (axis_bits 20 lng (-180) 180)
                                               (axis_bits 20 lat (-90) 90)))))
  else None.

End Spec.





(** ** Predicates and sample data used by the statements *)

Definition is_symbol (c : ascii) : bool := bool_decide (c ∈ Base32).



(** The origin, and San Francisco with the decimal coordinates of the
    specification. *)
Definition origin : Points := mkPoints (Fin 0) (Fin 0).
Definition san_francisco : Points :=
  mkPoints (Fin (-1224194 # 10000)) (Fin (377749 # 10000)).

(** ** The trie's well-formedness and its invariant *)

Definition optb {A : Type} (f : A -> bool) (o : option A) : bool :=
  match o with
  | None => true
  | Some a => f a
  end.

Definition optz {A : Type} (f : A -> Z) (o : option A) : Z :=
  match o with
  | None => 0
  | Some a => f a
  end.

Definition slots_sum {A : Type} (f : A -> Z) (cs : list (option A)) : Z :=
  foldr (fun o acc => optz f o + acc) 0 cs.

(** Every node has its 32 slots: what the type [[32]*geoTireNode] says. *)
Fixpoint shape (g : geoTireNode) : bool :=
  (length (children g) =? 32)%nat && forallb (optb shape) (children g).

(** No symbol of the string is one that [base32ToIndex] sends past the last
    slot: the string has none of the letters H J K M N P..Z. *)
Definition safe_code (s : string) : bool :=
  forallb (fun c => base32ToIndex c <? 32) (list_ascii_of_string s).

(** The number of terminal nodes in the subtree of [g], itself included. *)
Fixpoint terminals (g : geoTireNode) : Z :=
  (if end_ g then 1 else 0) + slots_sum terminals (children g).

(** The index paths from [g] to the terminal nodes of its subtree: the
    stored codes that pass through [g], less their common prefix. *)
Fixpoint paths (g : geoTireNode) : list (list nat) :=
  (if end_ g then [[]] else []) ++
  (fix loop (i : nat) (cs : list (option geoTireNode)) {struct cs} :=
     match cs with
     | [] => []
     | None :: cs' => loop (S i) cs'
     | Some c :: cs' => map (cons i) (paths c) ++ loop (S i) cs'
     end) 0%nat (children g).

(** A node other than the root: 32 slots, a positive passage count equal to
    the number of terminal nodes below it, and the same for its children. *)
Fixpoint node_ok (g : geoTireNode) : bool :=
  (length (children g) =? 32)%nat && (passCnt g =? terminals g)
  && (0 <? passCnt g) && forallb (optb node_ok) (children g).

(** The same for a node whose own count is left aside: the root, or a node
    in the middle of an update. *)
Definition sub_ok (g : geoTireNode) : bool :=
  (length (children g) =? 32)%nat && forallb (optb node_ok) (children g).

Definition trie_inv (t : TireTreeGeoService) : bool := sub_ok (root t).

(** Is the code stored: does its path end at a terminal node? *)
Definition terminal_at (g : geoTireNode) (hash : string) : bool :=
  match get_from g hash with
  | Ok (Some tg, _) => end_ tg
  | _ => false
  end.

Definition stored (t : TireTreeGeoService) (hash : string) : bool :=
  terminal_at (root t) hash.

(** Every stored code has [n] symbols. *)
Definition codes_of_length (n : nat) (t : TireTreeGeoService) : bool :=
  forallb (fun p => (length p =? n)%nat) (paths (root t)).

(** The state after a call, the service itself if the call panicked. *)
Definition after (t : TireTreeGeoService)
    (r : result (TireTreeGeoService * (bool * option error))) : TireTreeGeoService :=
  match r with
  | Ok (t', _) => t'
  | Panic _ => t
  end.

Definition p1 : Points := mkPoints (Fin 1) (Fin 2).
Definition p2 : Points := mkPoints (Fin 3) (Fin 4).

(** A trie holding the codes "0B" and "0", and one holding two codes of
    eight symbols. *)
Definition trie_0B_0 : TireTreeGeoService :=
  let t := NewTireTreeGeoService in
  let t := after t (GeoAdd_locked t origin "0B") in
  after t (GeoAdd_locked t p1 "0").

Definition trie_two_codes : TireTreeGeoService :=
  let t := NewTireTreeGeoService in
  let t := after t (GeoAdd_locked t origin "9C8FFG8F") in
  after t (GeoAdd_locked t p1 "9C8FFG00").

(** The slots of a code: where its symbols lead in the trie. *)
Definition code_path (hash : string) : list nat :=
  map (fun c => Z.to_nat (base32ToIndex c)) (list_ascii_of_string hash).

(** The node at the end of an index path. *)
Fixpoint walk_idx (g : geoTireNode) (p : list nat) : option geoTireNode :=
  match p with
  | [] => Some g
  | i :: q =>
      match children g !! i with
      | Some (Some c) => walk_idx c q
      | _ => None
      end
  end.

(** The loop of [paths] over the slots from index [i] on. *)
Fixpoint paths_slots (i : nat) (cs : list (option geoTireNode)) : list (list nat) :=
  match cs with
  | [] => []
  | None :: cs' => paths_slots (S i) cs'
  | Some c :: cs' => map (cons i) (paths c) ++ paths_slots (S i) cs'
  end.

(** The loop of [dfs] over the slots still to visit. *)
Fixpoint dfs_slots (cs : list (option geoTireNode)) (entries : list GeoEntry)
    (log : list string) : list GeoEntry * option error * list string :=
  match cs with
  | [] => (entries, None, log)
  | None :: cs' => dfs_slots cs' entries log
  | Some c :: cs' =>
      match dfs c with
      | (childEntries, Some err, log') =>
          (entries, Some err, log ++ log' ++ [Error_ err +:+ " dfs error"])
      | (childEntries, None, log') =>
          dfs_slots cs' (entries ++ childEntries) (log ++ log')
      end
  end.

(** Every symbol of the string is one of the 32 of the table. *)
Definition all_symbols (s : string) : bool :=
  forallb is_symbol (list_ascii_of_string s).

(** The tries the operations build from the fresh one, with codes of [n]
    symbols handed to the critical section of [GeoAdd]. *)
Inductive built (n : nat) : TireTreeGeoService → Prop :=
| built_new : built n NewTireTreeGeoService
| built_add t points geoHash t' r :
    built n t → String.length geoHash = n →
    GeoAdd_locked t points geoHash = Ok (t', r) → built n t'
| built_del t hash t' r :
    built n t → GeoDel t hash = Ok (t', r) → built n t'.

(** ** Definitions for the further properties *)

(** A symbol that leads to one of the 32 slots. *)
Definition slot_symbol (c : ascii) : bool :=
  (0 <=? base32ToIndex c) && (base32ToIndex c <? 32).

Definition usable_code (s : string) : bool :=
  forallb slot_symbol (list_ascii_of_string s).

(** The points a lookup of [hash] finds at the end of the index path [p]:
    those of the entry if the node is there and terminal. *)
Definition points_at (g : geoTireNode) (p : list nat) (hash : string) : list Points :=
  match walk_idx g p with
  | Some tg => if end_ tg then GeoEntry_get (entry tg) hash else []
  | None => []
  end.


(** The field [Hash] is the empty string in every entry of the subtree. *)
Fixpoint blank (g : geoTireNode) : bool :=
  String.eqb (Hash (entry g)) "" && forallb (optb blank) (children g).

(** The states of the index a caller of the exported operations can reach:
    the fresh one, and what [GeoAdd] and [GeoDel] return. *)
Inductive reachable : TireTreeGeoService → Prop :=
| reachable_new : reachable NewTireTreeGeoService
| reachable_add t points t' r :
    reachable t → GeoAdd t points = Ok (t', r) → reachable t'
| reachable_del t hash t' r :
    reachable t → GeoDel t hash = Ok (t', r) → reachable t'.

Definition trie_one_code : TireTreeGeoService :=
  after NewTireTreeGeoService
    (GeoAdd_locked NewTireTreeGeoService origin "9C8FFG8F").
(** * Properties *)

(** ** The alphabet *)

Lemma Base32_length : length Base32 = 32%nat.
Proof. reflexivity. Qed.

(** What [base32ToIndex] returns on the 32 symbols, in table order. *)
Lemma base32ToIndex_Base32 :
  map base32ToIndex Base32 =
  [0; 1; 2; 3; 4; 5; 6; 7; 8; 9; 26; 27; 28; 29; 30; 31; 32; 33; 34; 38; 39;
   43; 44; 45; 46; 47; 48; 49; 50; 51; 52; 53].
Proof. reflexivity. Qed.

(** The bytes [base32ToIndex] rejects are exactly those outside the table. *)
Lemma base32ToIndex_reject (c : ascii) :
  (base32ToIndex c =? -1) = negb (is_symbol c).
Proof.
  destruct c as [[] [] [] [] [] [] [] []]; vm_compute; reflexivity.
Qed.

Lemma base32ToIndex_invalid (c : ascii) :
  c ∉ Base32 → base32ToIndex c = -1.
Proof.
  intros Hc. apply Z.eqb_eq. rewrite base32ToIndex_reject.
  unfold is_symbol. rewrite bool_decide_eq_false_2; auto.
Qed.

Lemma base32ToIndex_bounds (c : ascii) :
  -1 <= base32ToIndex c <= 53.
Proof.
  destruct c as [[] [] [] [] [] [] [] []]; vm_compute; split; discriminate.
Qed.

(** The ten digits are the only symbols decoded to their table position. *)
Lemma base32ToIndex_digits (i : nat) (c : ascii) :
  Base32 !! i = Some c → (i < 10)%nat → base32ToIndex c = Z.of_nat i.
Proof.
  intros Hc Hi.
  do 10 (destruct i as [|i]; [injection Hc as <-; reflexivity|]). lia.
Qed.

(** C1, at the failing input: the symbol at table position 10 is ['B'], and
    [base32ToIndex] sends it to 26, not to 10; the offsets 26, 33, 35 and 37
    of tire.go:209-218 are not the table positions 10, 17, 19 and 21. *)
Theorem base32ToIndex_not_inverse :
  Base32 !! 10%nat = Some "B"%char ∧ base32ToIndex "B" = 26 ∧
  ∀ (i : nat) (c : ascii),
    Base32 !! i = Some c → (10 <= i)%nat → base32ToIndex c ≠ Z.of_nat i.
Proof.
  split; [reflexivity|]. split; [reflexivity|].
  intros i c Hc Hi.
  do 10 (destruct i as [|i]; [lia|]).
  do 22 (destruct i as [|i]; [injection Hc as <-; discriminate|]).
  discriminate.
Qed.

(** ** Bit generation *)

Lemma string_length_app (s1 s2 : string) :
  String.length (s1 +:+ s2) = (String.length s1 + String.length s2)%nat.
Proof. induction s1 as [|c s1 IH]; simpl; [reflexivity | now rewrite IH]. Qed.


(** The recursive equation of the source function. *)
Lemma getBinaryBits_eq (bits : string) (val : float64) (start end_ : Q) :
  getBinaryBits bits val start end_ =
  let '(b, start', end') := halve val start end_ in
  let bits' := bits +:+ String b "" in
  if 20 <=? Z.of_nat (String.length bits') then bits'
  else getBinaryBits bits' val start' end'.
Proof.
  unfold getBinaryBits.
  destruct (19 - String.length bits)%nat as [|n] eqn:Hn; simpl;
    destruct (halve val start end_) as [[b start'] end'];
    destruct (20 <=? _) eqn:Hlen; try reflexivity.
  - exfalso. apply Z.leb_gt in Hlen.
    rewrite string_length_app in Hlen. simpl in Hlen. lia.
  - rewrite string_length_app. simpl String.length.
    replace (19 - (String.length bits + 1))%nat with n by lia. reflexivity.
Qed.

Lemma getBinaryBits_rec_length (n : nat) (bits : string) val start end_ :
  (String.length bits + n = 19)%nat →
  String.length (getBinaryBits_rec n bits val start end_) = 20%nat.
Proof.
  revert bits start end_.
  induction n as [|n IH]; intros bits start end_ Hlen; simpl;
    destruct (halve val start end_) as [[b start'] end'];
    destruct (20 <=? _) eqn:Htest.
  - rewrite string_length_app. simpl. lia.
  - rewrite string_length_app. simpl. lia.
  - apply Z.leb_le in Htest. rewrite string_length_app in Htest. simpl in Htest. lia.
  - apply IH. rewrite string_length_app. simpl. lia.
Qed.

(** Each axis yields exactly 20 bits. *)
Lemma getBinaryBits_length (val : float64) (start end_ : Q) :
  String.length (getBinaryBits "" val start end_) = 20%nat.
Proof. apply getBinaryBits_rec_length. reflexivity. Qed.

Lemma string_app_cons (a : ascii) (s r : string) :
  String a s +:+ r = String a (s +:+ r).
Proof. reflexivity. Qed.

Lemma string_app_assoc1 (s : string) (c : ascii) (r : string) :
  (s +:+ String c "") +:+ r = s +:+ String c r.
Proof.
  induction s as [|a s IH]; [reflexivity|].
  rewrite !string_app_cons. now rewrite IH.
Qed.








(** ** GeoHash *)

(** The first iteration of the loop, [i = 0]: [i%1 == 1] is false, [i%2 == 0]
    is true, and [latBits[(i-1)>>1]] is [latBits[-1]]. *)
Lemma GeoHash_loop_first (n : nat) (lngBits latBits geoHash tmp : string) :
  GeoHash_loop (S n) 0 lngBits latBits geoHash tmp = Panic "index out of range".
Proof. reflexivity. Qed.

(** C2, on every input: [GeoHash] never gets to interleave anything.  Its
    loop panics in its first iteration, on [latBits[-1]]; the condition
    [i%1 == 1] of tire.go:164 never holds, so no longitude bit is ever
    read. *)
Theorem GeoHash_panics (points : Points) :
  GeoHash points = Panic "index out of range".
Proof. unfold GeoHash. apply GeoHash_loop_first. Qed.

(** The encoder of the specification returns where [GeoHash] does not. *)
Lemma Spec_encode_origin :
  Spec.encode 0 0 = Some "S0000000" ∧
  GeoHash origin = Panic "index out of range".
Proof. split; reflexivity. Qed.

(** C9, at the input of the claim. *)
Theorem GeoHash_san_francisco :
  GeoHash san_francisco = Panic "index out of range" ∧
  Spec.encode (-1224194 # 10000) (377749 # 10000) = Some "9Q8YYK8Y".
Proof. split; reflexivity. Qed.





(** ** Slots *)

Lemma at_index_Ok {A : Type} (l : list A) (i : Z) (x : A) :
  at_index l i = Ok x ↔ 0 <= i < Z.of_nat (length l) ∧ l !! Z.to_nat i = Some x.
Proof.
  unfold at_index.
  destruct (0 <=? i) eqn:H0; destruct (i <? Z.of_nat (length l)) eqn:H1; simpl.
  - apply Z.leb_le in H0. apply Z.ltb_lt in H1.
    destruct (l !! Z.to_nat i) eqn:E.
    + split; [intros [= ->]; auto | intros [_ [= ->]]; reflexivity].
    + split; [discriminate | intros [_ ?]; discriminate].
  - apply Z.ltb_ge in H1. split; [discriminate | lia].
  - apply Z.leb_gt in H0. split; [discriminate | lia].
  - apply Z.leb_gt in H0. split; [discriminate | lia].
Qed.

Lemma at_index_total {A : Type} (l : list A) (i : Z) :
  0 <= i < Z.of_nat (length l) → ∃ x, at_index l i = Ok x.
Proof.
  intros Hi. destruct (lookup_lt_is_Some_2 l (Z.to_nat i)) as [x Hx]; [lia|].
  exists x. apply at_index_Ok. auto.
Qed.

Lemma child_at_set_child (move : geoTireNode) (i : Z) (slot c : option geoTireNode) :
  child_at move i = Ok slot → child_at (set_child move i c) i = Ok c.
Proof.
  unfold child_at. intros [Hi Hl]%at_index_Ok. apply at_index_Ok.
  simpl. rewrite length_insert. split; [assumption|].
  apply list_lookup_insert_eq. lia.
Qed.

Lemma child_at_not_minus1 (move : geoTireNode) (i : Z) slot :
  child_at move i = Ok slot → (i =? -1) = false.
Proof. intros [Hi _]%at_index_Ok. apply Z.eqb_neq. lia. Qed.

(** ** get *)

(** [get] returns a node and no error, or no node and [ErrInvalidHash]. *)
Lemma get_from_cases (move : geoTireNode) (hash : string) target err :
  get_from move hash = Ok (target, err) →
  (∃ tg, target = Some tg ∧ err = None) ∨
  (target = None ∧ err = Some ErrInvalidHash).
Proof.
  revert move. induction hash as [|c rest IH]; intros move; simpl.
  - intros [= <- <-]. left. eauto.
  - destruct (base32ToIndex c =? -1); [intros [= <- <-]; right; auto|].
    destruct (child_at move (base32ToIndex c)) as [[ch|]|]; simpl;
      [apply IH | intros [= <- <-]; right; auto | discriminate].
Qed.

(** ** GeoEntry *)

Lemma GeoEntry_get_add (g : GeoEntry) (p : Points) (hash : string) :
  GeoEntry_get (GeoEntry_add g p hash) hash = GeoEntry_get g hash ++ [p].
Proof.
  unfold GeoEntry_get, GeoEntry_add. simpl. rewrite lookup_insert_eq. simpl.
  destruct (Points_ g); [reflexivity|]. now rewrite lookup_empty.
Qed.

(** ** Insertion then lookup *)

Lemma update_target_get (f : geoTireNode -> geoTireNode) (hash : string) :
  ∀ move tg err, get_from move hash = Ok (Some tg, err) →
  get_from (update_target move hash f) hash = Ok (Some (f tg), None).
Proof.
  induction hash as [|c rest IH]; intros move tg err; simpl.
  - intros [= <- <-]. reflexivity.
  - destruct (base32ToIndex c =? -1) eqn:Hidx; [discriminate|].
    destruct (child_at move (base32ToIndex c)) as [[ch|]|] eqn:Hslot; simpl;
      try discriminate.
    intros Hget. pose proof Hslot as [Hi Hl]%at_index_Ok. rewrite Hl.
    simpl.
    rewrite (child_at_set_child _ _ _ _ Hslot). simpl. eauto.
Qed.

Lemma add_walk_get (points : Points) (geoHash : string) (rest : string) :
  ∀ move move', add_walk move rest points geoHash = Ok move' →
  ∃ tg, get_from move' rest = Ok (Some tg, None) ∧ end_ tg = true ∧
        points ∈ GeoEntry_get (entry tg) geoHash.
Proof.
  induction rest as [|c rest IH]; intros move move'; simpl.
  - intros [= <-]. eexists. split; [reflexivity|]. split; [reflexivity|].
    simpl. rewrite GeoEntry_get_add. set_solver.
  - destruct (child_at move (base32ToIndex c)) as [slot|] eqn:Hslot; simpl;
      [|discriminate].
    destruct (add_walk _ rest points geoHash) as [ch'|] eqn:Hwalk; simpl;
      [|discriminate].
    intros [= <-]. rewrite (child_at_not_minus1 _ _ _ Hslot).
    rewrite (child_at_set_child _ _ _ _ Hslot). simpl. eauto.
Qed.

(** [GeoAdd] is [GeoHash] followed by the critical section. *)
Lemma GeoAdd_returns t points r :
  GeoAdd t points = Ok r →
  (∃ code e, GeoHash points = Ok (code, Some e) ∧ r = (t, (false, Some e))) ∨
  (∃ geoHash, GeoHash points = Ok (geoHash, None) ∧
              GeoAdd_locked t points geoHash = Ok r).
Proof.
  unfold GeoAdd.
  destruct (GeoHash points) as [[geoHash [e|]]|]; simpl; try discriminate.
  - intros [= <-]. left. eauto.
  - intros H. right. eauto.
Qed.

(** As it stands [GeoAdd] never gets that far. *)
Lemma GeoAdd_panics t points : GeoAdd t points = Panic "index out of range".
Proof. unfold GeoAdd, GeoHash. now rewrite GeoHash_loop_first. Qed.



(** ** The invariant *)

Lemma terminals_eq (g : geoTireNode) :
  terminals g = (if end_ g then 1 else 0) + slots_sum terminals (children g).
Proof. destruct g; reflexivity. Qed.

Lemma sub_ok_eq (g : geoTireNode) :
  sub_ok g = true ↔
  length (children g) = 32%nat ∧ forallb (optb node_ok) (children g) = true.
Proof.
  unfold sub_ok. rewrite andb_true_iff, Nat.eqb_eq. reflexivity.
Qed.

Lemma node_ok_eq (g : geoTireNode) :
  node_ok g = true ↔
  sub_ok g = true ∧ passCnt g = terminals g ∧ 0 < passCnt g.
Proof.
  rewrite sub_ok_eq. destruct g as [cs n e en]. cbn [node_ok children passCnt].
  fold (optb node_ok). rewrite !andb_true_iff, Nat.eqb_eq, Z.eqb_eq, Z.ltb_lt.
  tauto.
Qed.

Lemma forallb_lookup {A : Type} (f : A -> bool) (l : list A) (i : nat) (x : A) :
  forallb f l = true → l !! i = Some x → f x = true.
Proof.
  intros Hall Hl. rewrite forallb_forall in Hall. apply Hall.
  apply list_elem_of_In. eapply list_elem_of_lookup_2. eassumption.
Qed.

Lemma forallb_insert {A : Type} (f : A -> bool) (l : list A) (i : nat) (x : A) :
  forallb f l = true → f x = true → forallb f (<[i:=x]> l) = true.
Proof.
  revert i. induction l as [|a l IH]; intros i; simpl; [auto|].
  intros [Ha Hl]%andb_true_iff Hx.
  destruct i as [|i]; simpl; apply andb_true_iff; auto.
Qed.

Lemma slots_sum_cons {A : Type} (f : A -> Z) (o : option A) (l : list (option A)) :
  slots_sum f (o :: l) = optz f o + slots_sum f l.
Proof. reflexivity. Qed.

Lemma slots_sum_insert {A : Type} (f : A -> Z) (l : list (option A)) (i : nat)
    (o o' : option A) :
  l !! i = Some o →
  slots_sum f (<[i:=o']> l) = slots_sum f l - optz f o + optz f o'.
Proof.
  revert i. induction l as [|a l IH]; intros i; [discriminate|].
  destruct i as [|i].
  - intros [= ->]. change (<[0%nat:=o']> (o :: l)) with (o' :: l).
    rewrite !slots_sum_cons. lia.
  - intros Hl. change (<[S i:=o']> (a :: l)) with (a :: <[i:=o']> l).
    rewrite !slots_sum_cons, (IH i Hl). lia.
Qed.

Lemma sub_ok_newNode : sub_ok newNode = true.
Proof. reflexivity. Qed.

Lemma terminals_newNode : terminals newNode = 0.
Proof. reflexivity. Qed.

Lemma sub_ok_set_child (g : geoTireNode) (i : Z) (o : option geoTireNode) :
  sub_ok g = true → optb node_ok o = true → sub_ok (set_child g i o) = true.
Proof.
  rewrite !sub_ok_eq. simpl. rewrite length_insert.
  intros [Hlen Hall] Ho. split; [assumption|]. now apply forallb_insert.
Qed.

Lemma terminals_set_child (g : geoTireNode) (i : Z) (old o : option geoTireNode) :
  child_at g i = Ok old →
  terminals (set_child g i o) = terminals g - optz terminals old + optz terminals o.
Proof.
  intros [_ Hl]%at_index_Ok. rewrite !terminals_eq. simpl.
  rewrite (slots_sum_insert _ _ _ _ _ Hl). lia.
Qed.

Lemma child_at_node_ok (g : geoTireNode) (i : Z) (ch : geoTireNode) :
  sub_ok g = true → child_at g i = Ok (Some ch) → node_ok ch = true.
Proof.
  intros [_ Hall]%sub_ok_eq [_ Hl]%at_index_Ok.
  apply (forallb_lookup _ _ _ _ Hall Hl).
Qed.

Lemma terminals_set_passCnt (g : geoTireNode) (n : Z) :
  terminals (set_passCnt g n) = terminals g.
Proof. rewrite !terminals_eq. reflexivity. Qed.

(** *** [terminal_at] *)

Lemma terminal_at_nil (g : geoTireNode) : terminal_at g "" = end_ g.
Proof. reflexivity. Qed.

Lemma terminal_at_cons (g : geoTireNode) (c : ascii) (rest : string) slot :
  child_at g (base32ToIndex c) = Ok slot →
  terminal_at g (String c rest) =
  match slot with
  | Some ch => terminal_at ch rest
  | None => false
  end.
Proof.
  intros Hslot. unfold terminal_at. simpl.
  rewrite (child_at_not_minus1 _ _ _ Hslot), Hslot. simpl.
  destruct slot; reflexivity.
Qed.

Lemma terminal_at_set_passCnt (g : geoTireNode) (n : Z) (hash : string) :
  terminal_at (set_passCnt g n) hash = terminal_at g hash.
Proof. destruct hash; reflexivity. Qed.

Lemma terminal_at_newNode (hash : string) : terminal_at newNode hash = false.
Proof.
  destruct hash as [|c rest]; [reflexivity|].
  unfold terminal_at. simpl. destruct (base32ToIndex c =? -1); [reflexivity|].
  destruct (child_at newNode (base32ToIndex c)) as [slot|] eqn:Hslot;
    [|reflexivity].
  apply at_index_Ok in Hslot as [_ Hl]. unfold newNode in Hl.
  cbn [children] in Hl. apply lookup_replicate in Hl as [-> _]. reflexivity.
Qed.

(** *** The insertion walk *)

Lemma add_walk_ok (points : Points) (geoHash : string) (rest : string) :
  ∀ move move',
    sub_ok move = true → terminal_at move rest = false →
    add_walk move rest points geoHash = Ok move' →
    sub_ok move' = true ∧ terminals move' = terminals move + 1 ∧
    passCnt move' = passCnt move.
Proof.
  induction rest as [|c rest IH]; intros move move' Hok Hterm; simpl.
  - intros [= <-]. rewrite terminal_at_nil in Hterm.
    split; [exact Hok|]. split; [|reflexivity].
    rewrite !terminals_eq. simpl. rewrite Hterm. lia.
  - destruct (child_at move (base32ToIndex c)) as [slot|] eqn:Hslot; simpl;
      [|discriminate].
    rewrite (terminal_at_cons _ _ _ _ Hslot) in Hterm.
    set (ch := match slot with Some ch => ch | None => newNode end) in *.
    assert (Hch : sub_ok ch = true ∧ passCnt ch = terminals ch ∧ 0 <= passCnt ch
                  ∧ terminal_at ch rest = false ∧ optz terminals slot = terminals ch).
    { destruct slot as [ch0|]; subst ch.
      - pose proof (child_at_node_ok _ _ _ Hok Hslot) as (? & ? & ?)%node_ok_eq.
        repeat split; auto; lia.
      - repeat split; auto using terminal_at_newNode. reflexivity. }
    destruct Hch as (Hsub & Hcnt & Hpos & Hnot & Hold).
    destruct (add_walk _ rest points geoHash) as [ch'|] eqn:Hwalk; simpl;
      [|discriminate].
    intros [= <-].
    apply IH in Hwalk as (Hsub' & Hterm' & Hcnt');
      [| exact Hsub | now rewrite terminal_at_set_passCnt].
    rewrite terminals_set_passCnt in Hterm'. cbn [set_passCnt passCnt] in Hcnt'.
    split; [|split; [|reflexivity]].
    + apply sub_ok_set_child; [assumption|]. simpl. apply node_ok_eq.
      repeat split; [assumption | lia | lia].
    + rewrite (terminals_set_child _ _ _ _ Hslot). simpl. lia.
Qed.

(** *** The deletion walk *)

Lemma terminal_at_true_get (move : geoTireNode) (hash : string) :
  terminal_at move hash = true →
  ∃ tg, get_from move hash = Ok (Some tg, None) ∧ end_ tg = true.
Proof.
  unfold terminal_at.
  destruct (get_from move hash) as [[[tg|] err]|] eqn:Hget; try discriminate.
  intros Hend. destruct (get_from_cases _ _ _ _ Hget) as [(? & _ & ->)|[? _]];
    [eauto | discriminate].
Qed.

Lemma del_walk_ok (hash : string) :
  ∀ move,
    sub_ok move = true → terminal_at move hash = true →
    ∃ move', del_walk move hash = Ok move' ∧
             sub_ok move' = true ∧ terminals move' = terminals move - 1 ∧
             passCnt move' = passCnt move.
Proof.
  induction hash as [|c rest IH]; intros move Hok Hterm; simpl.
  - rewrite terminal_at_nil in Hterm. eexists. split; [reflexivity|].
    split; [exact Hok|]. split; [|reflexivity].
    rewrite !terminals_eq. simpl. rewrite Hterm. lia.
  - destruct (child_at move (base32ToIndex c)) as [slot|] eqn:Hslot; simpl.
    2:{ unfold terminal_at in Hterm. simpl in Hterm.
        destruct (base32ToIndex c =? -1); [discriminate|].
        rewrite Hslot in Hterm. discriminate. }
    rewrite (terminal_at_cons _ _ _ _ Hslot) in Hterm.
    destruct slot as [ch|]; [|discriminate].
    pose proof (child_at_node_ok _ _ _ Hok Hslot) as (Hsub & Hcnt & Hpos)%node_ok_eq.
    destruct (passCnt ch - 1 =? 0) eqn:Hzero.
    + apply Z.eqb_eq in Hzero. eexists. split; [reflexivity|].
      split; [|split; [|reflexivity]].
      * now apply sub_ok_set_child.
      * rewrite (terminals_set_child _ _ _ _ Hslot). simpl. lia.
    + apply Z.eqb_neq in Hzero.
      destruct (IH (set_passCnt ch (passCnt ch - 1))) as (ch' & -> & Hsub' & Hterm' & Hcnt');
        [exact Hsub | now rewrite terminal_at_set_passCnt |].
      rewrite terminals_set_passCnt in Hterm'. cbn [set_passCnt passCnt] in Hcnt'.
      simpl. eexists. split; [reflexivity|].
      split; [|split; [|reflexivity]].
      * apply sub_ok_set_child; [assumption|]. simpl. apply node_ok_eq.
        repeat split; [assumption | lia | lia].
      * rewrite (terminals_set_child _ _ _ _ Hslot). simpl. lia.
Qed.

(** *** A write to the entry of an existing node *)

Lemma update_target_ok (f : geoTireNode -> geoTireNode) (hash : string) :
  (∀ g, children (f g) = children g ∧ passCnt (f g) = passCnt g ∧
        end_ (f g) = end_ g) →
  ∀ move, sub_ok move = true →
    sub_ok (update_target move hash f) = true ∧
    terminals (update_target move hash f) = terminals move ∧
    passCnt (update_target move hash f) = passCnt move.
Proof.
  intros Hf. induction hash as [|c rest IH]; intros move Hok; simpl.
  - destruct (Hf move) as (Hc & Hp & He).
    split; [|split; [|assumption]].
    + apply sub_ok_eq. rewrite Hc. now apply sub_ok_eq.
    + rewrite !terminals_eq, Hc, He. reflexivity.
  - destruct (children move !! Z.to_nat (base32ToIndex c)) as [[ch|]|] eqn:Hl;
      auto.
    pose proof Hok as [_ Hall]%sub_ok_eq.
    pose proof (forallb_lookup _ _ _ _ Hall Hl) as (Hsub & Hcnt & Hpos)%node_ok_eq.
    destruct (IH ch Hsub) as (Hsub' & Hterm' & Hcnt').
    split; [|split; [|reflexivity]].
    + apply sub_ok_set_child; [assumption|]. simpl. apply node_ok_eq.
      repeat split; [assumption | lia | lia].
    + rewrite !terminals_eq. simpl.
      rewrite (slots_sum_insert _ _ _ _ _ Hl). simpl. lia.
Qed.

(** *** The operations *)

Lemma GeoAdd_locked_inv t points geoHash t' r :
  trie_inv t = true → GeoAdd_locked t points geoHash = Ok (t', r) →
  trie_inv t' = true.
Proof.
  unfold trie_inv, GeoAdd_locked, get. intros Hok.
  destruct (get_from (root t) geoHash) as [[target e]|] eqn:Hget; simpl;
    [|discriminate].
  destruct (match target with Some tg => end_ tg | None => false end) eqn:Hfound.
  - intros [= <- <-]. simpl. apply update_target_ok; [|assumption].
    intros g. auto.
  - destruct (add_walk _ _ _ _) as [r0|] eqn:Hwalk; simpl; [|discriminate].
    intros [= <- <-]. simpl.
    eapply add_walk_ok; [exact Hok | | exact Hwalk].
    unfold terminal_at. rewrite Hget. destruct target; auto.
Qed.

Lemma GeoDel_inv t hash t' r :
  trie_inv t = true → GeoDel t hash = Ok (t', r) → trie_inv t' = true.
Proof.
  unfold trie_inv, GeoDel, get. intros Hok.
  destruct (get_from (root t) hash) as [[target [e|]]|] eqn:Hget; simpl;
    try discriminate.
  - intros [= <- <-]. assumption.
  - destruct target as [tg|]; [|intros [= <- <-]; assumption].
    destruct (end_ tg) eqn:Hend; simpl; [|intros [= <- <-]; assumption].
    destruct (del_walk_ok hash (root t) Hok) as (r0 & -> & Hsub & _).
    { unfold terminal_at. now rewrite Hget. }
    simpl. intros [= <- <-]. assumption.
Qed.

(** *** Passage counts count stored codes *)

Lemma node_induction (P : geoTireNode → Prop) :
  (∀ g, Forall (λ o, match o with Some c => P c | None => True end) (children g)
        → P g) →
  ∀ g, P g.
Proof.
  intros H. fix IH 1. intros [cs n e en]. apply H. simpl.
  revert cs. fix IHcs 1. intros [|[c|] cs]; constructor; auto.
Qed.

Lemma paths_eq (g : geoTireNode) :
  paths g = (if end_ g then [[]] else []) ++ paths_slots 0 (children g).
Proof.
  destruct g as [cs n e en]. reflexivity.
Qed.

Lemma paths_slots_length (k : nat) (cs : list (option geoTireNode)) :
  Forall (λ o, match o with
               | Some c => terminals c = Z.of_nat (length (paths c))
               | None => True
               end) cs →
  slots_sum terminals cs = Z.of_nat (length (paths_slots k cs)).
Proof.
  intros Hall. revert k. induction Hall as [|[c|] cs Hc _ IH]; intros k; simpl.
  - reflexivity.
  - rewrite length_app, length_map, Nat2Z.inj_add, <- (IH (S k)), Hc.
    reflexivity.
  - rewrite <- (IH (S k)). reflexivity.
Qed.

(** The number of terminal nodes below a node is the number of index paths
    that lead from it to a terminal node. *)
Lemma terminals_paths (g : geoTireNode) :
  terminals g = Z.of_nat (length (paths g)).
Proof.
  induction g as [g IH] using node_induction.
  rewrite terminals_eq, paths_eq, length_app, Nat2Z.inj_add.
  rewrite (paths_slots_length 0 _ IH). destruct (end_ g); reflexivity.
Qed.

Lemma elem_of_paths_slots (k : nat) (cs : list (option geoTireNode)) (p : list nat) :
  p ∈ paths_slots k cs ↔
  ∃ i q c, p = (k + i)%nat :: q ∧ cs !! i = Some (Some c) ∧ q ∈ paths c.
Proof.
  revert k. induction cs as [|[c|] cs IH]; intros k; simpl.
  - split; [intros []%elem_of_nil | intros (i & q & c & _ & H & _); discriminate].
  - rewrite elem_of_app, list_elem_of_fmap, IH. split.
    + intros [(q & -> & Hq)|(i & q & c' & -> & Hl & Hq)].
      * exists 0%nat, q, c. rewrite Nat.add_0_r. auto.
      * exists (S i), q, c'. rewrite Nat.add_succ_r. auto.
    + intros (i & q & c' & -> & Hl & Hq). destruct i as [|i]; simpl in Hl.
      * injection Hl as <-. left. exists q. rewrite Nat.add_0_r. auto.
      * right. exists i, q, c'. rewrite Nat.add_succ_r. auto.
  - rewrite IH. split.
    + intros (i & q & c' & -> & Hl & Hq).
      exists (S i), q, c'. rewrite Nat.add_succ_r. auto.
    + intros (i & q & c' & -> & Hl & Hq). destruct i as [|i]; simpl in Hl;
        [discriminate|].
      exists i, q, c'. rewrite Nat.add_succ_r. auto.
Qed.

(** An index path is listed iff it ends at a terminal node. *)
Lemma elem_of_paths (p : list nat) :
  ∀ g, p ∈ paths g ↔ ∃ tg, walk_idx g p = Some tg ∧ end_ tg = true.
Proof.
  induction p as [|i q IH]; intros g; rewrite paths_eq, elem_of_app,
    elem_of_paths_slots; simpl.
  - split.
    + intros [Hend|(i & q & c & [=] & _)].
      destruct (end_ g) eqn:E; [eauto | now apply elem_of_nil in Hend].
    + intros (tg & [= <-] & ->). left. apply list_elem_of_singleton. reflexivity.
  - split.
    + intros [Hend|(j & q' & c & [= -> ->] & Hl & Hq)].
      * destruct (end_ g); [apply list_elem_of_singleton in Hend; discriminate
                           | now apply elem_of_nil in Hend].
      * rewrite Hl. now apply IH.
    + destruct (children g !! i) as [[c|]|] eqn:Hl;
        [| intros (? & ? & _); discriminate | intros (? & ? & _); discriminate].
      intros Hq%IH. right. exists i, q, c. auto.
Qed.

Lemma NoDup_paths_slots (k : nat) (cs : list (option geoTireNode)) :
  Forall (λ o, match o with Some c => NoDup (paths c) | None => True end) cs →
  NoDup (paths_slots k cs).
Proof.
  intros Hall. revert k. induction Hall as [|[c|] cs Hc _ IH]; intros k; simpl.
  - constructor.
  - apply NoDup_app. split; [|split; [|apply IH]].
    + apply NoDup_fmap_2; [intros ? ? [=]; assumption | assumption].
    + intros p (q & -> & _)%list_elem_of_fmap
        (i & q' & c' & [= Hk _] & _)%elem_of_paths_slots. lia.
  - apply IH.
Qed.

(** No index path is listed twice: the count is one of distinct codes. *)
Lemma NoDup_paths (g : geoTireNode) : NoDup (paths g).
Proof.
  induction g as [g IH] using node_induction.
  rewrite paths_eq. apply NoDup_app. split; [|split].
  - destruct (end_ g); [apply NoDup_singleton | constructor].
  - intros p Hp (i & q & c & -> & _)%elem_of_paths_slots.
    destruct (end_ g); [apply list_elem_of_singleton in Hp; discriminate
                       | now apply elem_of_nil in Hp].
  - apply NoDup_paths_slots, IH.
Qed.

(** ** dfs *)

Lemma dfs_eq (g : geoTireNode) :
  dfs g = dfs_slots (children g) (if end_ g then [entry g] else []) [].
Proof. destruct g; reflexivity. Qed.

Lemma dfs_slots_quiet (cs : list (option geoTireNode)) :
  Forall (λ o, match o with
               | Some c => ∃ es, dfs c = (es, None, [])
               | None => True
               end) cs →
  ∀ entries, ∃ es, dfs_slots cs entries [] = (es, None, []).
Proof.
  induction 1 as [|[c|] cs Hc _ IH]; intros entries; simpl.
  - eauto.
  - destruct Hc as [es ->]. apply IH.
  - apply IH.
Qed.

(** [dfs] returns no error and writes nothing to the log: the branch of
    tire.go:32-34 is never taken. *)
Lemma dfs_quiet (g : geoTireNode) : ∃ es, dfs g = (es, None, []).
Proof.
  induction g as [g IH] using node_induction.
  rewrite dfs_eq. now apply dfs_slots_quiet.
Qed.

(** ** Calls that return *)

Lemma shape_eq (g : geoTireNode) :
  shape g = true ↔
  length (children g) = 32%nat ∧ forallb (optb shape) (children g) = true.
Proof.
  destruct g as [cs n e en]. cbn [shape children]. fold (optb shape).
  rewrite andb_true_iff, Nat.eqb_eq. reflexivity.
Qed.

Lemma safe_code_cons (c : ascii) (rest : string) :
  safe_code (String c rest) = true ↔
  base32ToIndex c < 32 ∧ safe_code rest = true.
Proof.
  unfold safe_code. simpl. rewrite andb_true_iff, Z.ltb_lt. reflexivity.
Qed.

Lemma child_at_shape (move : geoTireNode) (index : Z) :
  shape move = true → 0 <= index < 32 →
  ∃ slot, child_at move index = Ok slot ∧ optb shape slot = true.
Proof.
  intros [Hlen Hall]%shape_eq Hi.
  destruct (at_index_total (children move) index) as [slot Hslot]; [lia|].
  exists slot. split; [exact Hslot|].
  apply at_index_Ok in Hslot as [_ Hl]. apply (forallb_lookup _ _ _ _ Hall Hl).
Qed.

(** On a code without the letters H..Z, [get] walks the index path of the
    code and returns: the node at its end, or [ErrInvalidHash] where the path
    breaks or a byte is no symbol. *)
Lemma get_from_safe (hash : string) :
  ∀ move, shape move = true → safe_code hash = true →
  get_from move hash =
  Ok (if all_symbols hash then
        match walk_idx move (code_path hash) with
        | Some tg => (Some tg, None)
        | None => (None, Some ErrInvalidHash)
        end
      else (None, Some ErrInvalidHash)).
Proof.
  induction hash as [|c rest IH]; intros move Hshape Hsafe; [reflexivity|].
  apply safe_code_cons in Hsafe as [Hc Hsafe].
  cbn [get_from]. unfold all_symbols. cbn [list_ascii_of_string forallb].
  pose proof (base32ToIndex_reject c) as Hrej.
  destruct (base32ToIndex c =? -1) eqn:Hidx.
  - symmetry in Hrej. apply negb_true_iff in Hrej. rewrite Hrej. reflexivity.
  - symmetry in Hrej. apply negb_false_iff in Hrej. rewrite Hrej.
    apply Z.eqb_neq in Hidx.
    pose proof (base32ToIndex_bounds c) as Hb.
    destruct (child_at_shape move (base32ToIndex c) Hshape) as (slot & Hslot & Hs);
      [lia|].
    rewrite Hslot. pose proof Hslot as [_ Hl]%at_index_Ok.
    unfold code_path. cbn [list_ascii_of_string map walk_idx]. rewrite Hl.
    destruct slot as [ch|]; simpl.
    + rewrite (IH ch Hs Hsafe). reflexivity.
    + destruct (forallb is_symbol (list_ascii_of_string rest)); reflexivity.
Qed.

Lemma get_from_total (move : geoTireNode) (hash : string) :
  shape move = true → safe_code hash = true →
  ∃ target err, get_from move hash = Ok (target, err).
Proof.
  intros Hshape Hsafe. rewrite (get_from_safe _ _ Hshape Hsafe).
  destruct (all_symbols hash); [destruct (walk_idx _ _)|]; eauto.
Qed.

(** Where [get] found a node, the loop of [GeoDel] finds every child it
    dereferences. *)
Lemma del_walk_total (hash : string) :
  ∀ move tg err, get_from move hash = Ok (Some tg, err) →
  ∃ move', del_walk move hash = Ok move'.
Proof.
  induction hash as [|c rest IH]; intros move tg err; simpl; [eauto|].
  destruct (base32ToIndex c =? -1); [discriminate|].
  destruct (child_at move (base32ToIndex c)) as [[ch|]|]; simpl;
    try discriminate.
  intros Hget. destruct (passCnt ch - 1 =? 0); [eauto|].
  destruct (IH (set_passCnt ch (passCnt ch - 1)) (match rest with
                                                  | "" => set_passCnt ch (passCnt ch - 1)
                                                  | _ => tg
                                                  end) err) as [ch' ->].
  - destruct rest; [injection Hget as <- <-; reflexivity | exact Hget].
  - simpl. eauto.
Qed.

Lemma GeoPosition_returns t hash :
  shape (root t) = true → safe_code hash = true →
  ∃ pts err, GeoPosition t hash = Ok (pts, err) ∧
             (err = None ∨ err = Some ErrInvalidHash) ∧
             (all_symbols hash = false → pts = [] ∧ err = Some ErrInvalidHash).
Proof.
  intros Hshape Hsafe. unfold GeoPosition, get.
  rewrite (get_from_safe _ _ Hshape Hsafe).
  destruct (all_symbols hash); [destruct (walk_idx _ _) as [tg|]|]; simpl.
  - destruct (end_ tg); simpl; eexists _, _; split; eauto; split; auto; discriminate.
  - eexists _, _; split; eauto; split; auto; discriminate.
  - eexists _, _; split; eauto.
Qed.

Lemma GeoDel_returns t hash :
  shape (root t) = true → safe_code hash = true →
  ∃ t' b err, GeoDel t hash = Ok (t', (b, err)) ∧
              (err = None ∨ err = Some ErrInvalidHash) ∧
              (all_symbols hash = false →
               t' = t ∧ b = false ∧ err = Some ErrInvalidHash).
Proof.
  intros Hshape Hsafe. unfold GeoDel, get.
  pose proof (get_from_safe _ _ Hshape Hsafe) as Hget. rewrite Hget.
  destruct (all_symbols hash); [destruct (walk_idx _ _) as [tg|]|]; simpl.
  - destruct (end_ tg); simpl.
    + destruct (del_walk_total _ _ _ _ Hget) as [r ->]. simpl.
      eexists _, _, _; split; eauto; split; auto; discriminate.
    + eexists _, _, _; split; eauto; split; auto; discriminate.
  - eexists _, _, _; split; eauto; split; auto; discriminate.
  - eexists _, _, _; split; eauto.
Qed.

Lemma FindByPrefix_safe t prefix :
  shape (root t) = true → safe_code prefix = true →
  FindByPrefix t prefix =
  Ok (if all_symbols prefix then
        match walk_idx (root t) (code_path prefix) with
        | Some tg => dfs tg
        | None => ([], Some ErrInvalidHash, [])
        end
      else ([], Some ErrInvalidHash, [])).
Proof.
  intros Hshape Hsafe. unfold FindByPrefix, get.
  rewrite (get_from_safe _ _ Hshape Hsafe).
  destruct (all_symbols prefix); [destruct (walk_idx _ _)|]; reflexivity.
Qed.

(** C3, refuted as stated: [GeoDistance] is the stub [panic("implement me")]
    and returns nothing. *)
Lemma GeoDistance_panics : ¬ ∃ r, GeoDistance origin origin = Ok r.
Proof. intros [r H]. discriminate. Qed.

(** C3, amended.  On every trie and every string that has none of the
    letters H, J, K, M, N, P..Z (any other byte is allowed), [GeoPosition],
    [GeoDel] and [FindByPrefix] return a value and an error that is nil or
    [ErrInvalidHash]; the error is [ErrInvalidHash] when the string has a
    byte outside the alphabet, and [FindByPrefix] writes nothing to the log.
    [GeoDistance] panics on every input. *)
Theorem operations_return t s :
  shape (root t) = true → safe_code s = true →
  (∃ pts err, GeoPosition t s = Ok (pts, err) ∧
              (err = None ∨ err = Some ErrInvalidHash) ∧
              (all_symbols s = false → pts = [] ∧ err = Some ErrInvalidHash)) ∧
  (∃ t' b err, GeoDel t s = Ok (t', (b, err)) ∧
               (err = None ∨ err = Some ErrInvalidHash) ∧
               (all_symbols s = false →
                t' = t ∧ b = false ∧ err = Some ErrInvalidHash)) ∧
  (∃ es err, FindByPrefix t s = Ok (es, err, []) ∧
             (err = None ∨ err = Some ErrInvalidHash) ∧
             (all_symbols s = false → es = [] ∧ err = Some ErrInvalidHash)) ∧
  (∀ points points2, GeoDistance points points2 = Panic "implement me").
Proof.
  intros Hshape Hsafe.
  split; [now apply GeoPosition_returns|].
  split; [now apply GeoDel_returns|].
  split; [|reflexivity].
  rewrite (FindByPrefix_safe _ _ Hshape Hsafe).
  destruct (all_symbols s); [destruct (walk_idx _ _) as [tg|]|].
  - destruct (dfs_quiet tg) as [es ->].
    eexists _, _; split; eauto; split; auto; discriminate.
  - eexists _, _; split; eauto; split; auto; discriminate.
  - eexists _, _; split; eauto.
Qed.

Lemma operations_return_witness :
  ∃ pts err, GeoPosition trie_0B_0 "0b" = Ok (pts, err) ∧
             (err = None ∨ err = Some ErrInvalidHash) ∧
             (all_symbols "0b" = false → pts = [] ∧ err = Some ErrInvalidHash).
Proof.
  apply (operations_return trie_0B_0 "0b"); vm_compute; reflexivity.
Defined.

(** ** FindByPrefix *)

(** C8, refuted as stated: ['0'] is a symbol of the alphabet and the fresh
    trie has no path for it; [FindByPrefix] returns the empty result with
    [ErrInvalidHash], not without error. *)
Lemma FindByPrefix_missing_path :
  all_symbols "0" = true ∧
  FindByPrefix NewTireTreeGeoService "0" = Ok ([], Some ErrInvalidHash, []).
Proof. split; reflexivity. Qed.

(** C8, amended.  For a prefix without the letters H..Z: [FindByPrefix]
    fails with [ErrInvalidHash] and an empty result when the prefix has a
    byte outside the alphabet and also when its symbols are valid and its
    path does not exist in the trie; when the path exists it returns,
    without error, the traversal of the node the path ends at.  The empty
    prefix resolves to the root. *)
Theorem FindByPrefix_spec t prefix :
  shape (root t) = true → safe_code prefix = true →
  (all_symbols prefix = false →
   FindByPrefix t prefix = Ok ([], Some ErrInvalidHash, [])) ∧
  (all_symbols prefix = true →
   walk_idx (root t) (code_path prefix) = None →
   FindByPrefix t prefix = Ok ([], Some ErrInvalidHash, [])) ∧
  (∀ tg, all_symbols prefix = true →
         walk_idx (root t) (code_path prefix) = Some tg →
         ∃ es, dfs tg = (es, None, []) ∧
               FindByPrefix t prefix = Ok (es, None, [])) ∧
  FindByPrefix t "" = Ok (dfs (root t)).
Proof.
  intros Hshape Hsafe. rewrite (FindByPrefix_safe _ _ Hshape Hsafe).
  split; [intros ->; reflexivity|].
  split; [intros -> ->; reflexivity|].
  split; [|reflexivity].
  intros tg -> ->. destruct (dfs_quiet tg) as [es Hes].
  exists es. rewrite Hes. auto.
Qed.

Lemma FindByPrefix_spec_witness :
  FindByPrefix trie_0B_0 "0C" = Ok ([], Some ErrInvalidHash, []).
Proof.
  apply (FindByPrefix_spec trie_0B_0 "0C"); vm_compute; reflexivity.
Defined.

(** ** GeoDel *)

(** An unsuccessful [GeoDel] leaves the trie as it was. *)
Lemma GeoDel_error_unchanged t hash t' err :
  GeoDel t hash = Ok (t', (false, err)) → t' = t ∧ err = Some ErrInvalidHash.
Proof.
  unfold GeoDel, get.
  destruct (get_from (root t) hash) as [[target e]|] eqn:Hget; simpl;
    [|discriminate].
  destruct (get_from_cases _ _ _ _ Hget) as [(tg & -> & ->)|[-> ->]].
  - destruct (end_ tg); simpl; [|intros [= <- <-]; auto].
    destruct (del_walk (root t) hash); simpl; discriminate.
  - intros [= <- <-]. auto.
Qed.

(** The walk of [GeoDel] leaves no terminal node at the end of the path. *)
Lemma del_walk_not_terminal (hash : string) :
  ∀ move move', del_walk move hash = Ok move' → terminal_at move' hash = false.
Proof.
  induction hash as [|c rest IH]; intros move move'; simpl.
  - intros [= <-]. reflexivity.
  - destruct (child_at move (base32ToIndex c)) as [[ch|]|] eqn:Hslot; simpl;
      try discriminate.
    destruct (passCnt ch - 1 =? 0).
    + intros [= <-].
      now rewrite (terminal_at_cons _ _ _ _ (child_at_set_child _ _ _ None Hslot)).
    + destruct (del_walk _ rest) as [ch'|] eqn:Hwalk; simpl; [|discriminate].
      intros [= <-].
      rewrite (terminal_at_cons _ _ _ _ (child_at_set_child _ _ _ (Some ch') Hslot)).
      eapply IH, Hwalk.
Qed.

(** After a successful [GeoDel] the code is no longer stored. *)
Lemma GeoDel_not_stored t hash t' err :
  GeoDel t hash = Ok (t', (true, err)) → stored t' hash = false.
Proof.
  unfold GeoDel, get, stored.
  destruct (get_from (root t) hash) as [[target [e|]]|]; simpl; try discriminate.
  destruct target as [tg|]; [|discriminate].
  destruct (end_ tg); simpl; [|discriminate].
  destruct (del_walk (root t) hash) as [r|] eqn:Hwalk; simpl; [|discriminate].
  intros [= <- <-]. simpl. eapply del_walk_not_terminal, Hwalk.
Qed.

(** C5, at two failing inputs.  ['H'] is a symbol of the alphabet and has no
    path in the fresh trie: [GeoDel] does not fail with [ErrInvalidHash], it
    panics, [base32ToIndex] sending ['H'] to slot 32 of 32.  And where the
    whole path is walked ("0" in a trie that also holds "0B"), only the flag
    is cleared: the lookup is empty, but a later insertion of the code
    brings the deleted point back. *)
Theorem GeoDel_failures :
  (is_symbol "H" = true ∧
   GeoDel NewTireTreeGeoService "H" = Panic "index out of range") ∧
  (let t := after trie_0B_0 (GeoDel trie_0B_0 "0") in
   GeoPosition trie_0B_0 "0" = Ok ([p1], None) ∧
   (∃ t', GeoDel trie_0B_0 "0" = Ok (t', (true, None))) ∧
   GeoPosition t "0" = Ok ([], None) ∧
   GeoPosition (after t (GeoAdd_locked t p2 "0")) "0" = Ok ([p1; p2], None)).
Proof.
  split; [split; reflexivity|].
  vm_compute. repeat split; try reflexivity. eexists. reflexivity.
Qed.

(** ** Stored codes and index paths *)

Lemma code_path_length (hash : string) :
  length (code_path hash) = String.length hash.
Proof.
  unfold code_path. rewrite length_map.
  induction hash as [|c rest IH]; simpl; [reflexivity | now rewrite IH].
Qed.

Lemma walk_idx_app (p q : list nat) :
  ∀ g, walk_idx g (p ++ q) =
       match walk_idx g p with
       | Some g' => walk_idx g' q
       | None => None
       end.
Proof.
  induction p as [|i p IH]; intros g; simpl; [reflexivity|].
  destruct (children g !! i) as [[c|]|]; auto.
Qed.

Lemma get_from_walk_idx (hash : string) :
  ∀ move tg err, get_from move hash = Ok (Some tg, err) →
  walk_idx move (code_path hash) = Some tg.
Proof.
  induction hash as [|c rest IH]; intros move tg err; simpl.
  - intros [= <- <-]. reflexivity.
  - destruct (base32ToIndex c =? -1); [discriminate|].
    destruct (child_at move (base32ToIndex c)) as [[ch|]|] eqn:Hslot; simpl;
      try discriminate.
    apply at_index_Ok in Hslot as [_ Hl].
    unfold code_path. cbn [list_ascii_of_string map walk_idx]. rewrite Hl.
    apply IH.
Qed.

(** Below the root, every node [get] can reach satisfies the invariant. *)
Lemma get_from_node_ok (rest : string) :
  ∀ c move tg err, sub_ok move = true →
  get_from move (String c rest) = Ok (Some tg, err) → node_ok tg = true.
Proof.
  induction rest as [|c' rest IH]; intros c move tg err Hok;
    cbn [get_from]; (destruct (base32ToIndex c =? -1); [discriminate|]);
    destruct (child_at move (base32ToIndex c)) as [[ch|]|] eqn:Hslot;
    cbn [mbind result_bind]; try discriminate;
    pose proof (child_at_node_ok _ _ _ Hok Hslot) as Hch.
  - intros [= <- <-]. exact Hch.
  - apply IH. now apply node_ok_eq in Hch as [? _].
Qed.


Lemma codes_of_length_spec (n : nat) t :
  codes_of_length n t = true ↔ ∀ q, q ∈ paths (root t) → length q = n.
Proof.
  unfold codes_of_length. rewrite forallb_forall. split.
  - intros H q Hq. apply Nat.eqb_eq, H, list_elem_of_In, Hq.
  - intros H q Hq. apply Nat.eqb_eq, H, list_elem_of_In, Hq.
Qed.


(** ** What GeoAdd returns *)

(** The error [GeoAdd] returns with [true] is the error of its probe. *)
Lemma GeoAdd_locked_result t points geoHash t' b err :
  GeoAdd_locked t points geoHash = Ok (t', (b, err)) →
  b = true ∧ ∃ target, get t geoHash = Ok (target, err).
Proof.
  unfold GeoAdd_locked.
  destruct (get t geoHash) as [[target e]|]; simpl; [|discriminate].
  destruct (match target with Some tg => end_ tg | None => false end).
  - intros [= <- <- <-]. eauto.
  - destruct (add_walk _ _ _ _); simpl; [|discriminate].
    intros [= <- <- <-]. eauto.
Qed.



(** ** The stored codes after an insertion and after a deletion *)

Lemma nil_in_paths (g : geoTireNode) : [] ∈ paths g ↔ end_ g = true.
Proof.
  rewrite elem_of_paths. simpl. split.
  - intros (tg & [= <-] & H). exact H.
  - eauto.
Qed.

Lemma cons_in_paths (g : geoTireNode) (i : nat) (q : list nat) :
  i :: q ∈ paths g ↔ ∃ c, children g !! i = Some (Some c) ∧ q ∈ paths c.
Proof.
  rewrite elem_of_paths. simpl. split.
  - intros (tg & Hw & Hend).
    destruct (children g !! i) as [[c|]|]; try discriminate.
    exists c. split; [reflexivity|]. apply elem_of_paths. eauto.
  - intros (c & -> & (tg & Hw & Hend)%elem_of_paths). eauto.
Qed.

Lemma paths_set_passCnt (g : geoTireNode) (n : Z) :
  paths (set_passCnt g n) = paths g.
Proof. rewrite !paths_eq. reflexivity. Qed.

Lemma paths_newNode : paths newNode = [].
Proof. reflexivity. Qed.

Lemma cons_in_paths_set_child (g : geoTireNode) (i : Z) (slot o : option geoTireNode)
    (j : nat) (q : list nat) :
  child_at g i = Ok slot →
  j :: q ∈ paths (set_child g i o) ↔
  if decide (j = Z.to_nat i) then
    match o with
    | Some c => q ∈ paths c
    | None => False
    end
  else j :: q ∈ paths g.
Proof.
  intros [Hi Hl]%at_index_Ok.
  destruct (decide (j = Z.to_nat i)) as [->|Hne]; rewrite !cons_in_paths;
    cbn [set_child set_children children].
  - rewrite list_lookup_insert_eq by lia. split.
    + intros (c & [= ->] & Hq). exact Hq.
    + destruct o as [c|]; [eauto | intros []].
  - rewrite list_lookup_insert_ne by auto. reflexivity.
Qed.

Lemma code_path_cons (c : ascii) (rest : string) :
  code_path (String c rest) = Z.to_nat (base32ToIndex c) :: code_path rest.
Proof. reflexivity. Qed.

(** The insertion walk adds the index path of the code, and nothing else. *)
Lemma add_walk_paths (points : Points) (geoHash : string) (rest : string) :
  ∀ move move', add_walk move rest points geoHash = Ok move' →
  ∀ q, q ∈ paths move' ↔ q = code_path rest ∨ q ∈ paths move.
Proof.
  induction rest as [|c rest IH]; intros move move'; cbn [add_walk].
  - intros [= <-] [|j q].
    + rewrite nil_in_paths. simpl. tauto.
    + rewrite !cons_in_paths. simpl. split; [auto | intros [[=]|H]; exact H].
  - destruct (child_at move (base32ToIndex c)) as [slot|] eqn:Hslot;
      cbn [mbind result_bind]; [|discriminate].
    destruct (add_walk _ rest points geoHash) as [ch'|] eqn:Hwalk;
      cbn [mbind result_bind]; [|discriminate].
    intros [= <-] [|j q].
    + rewrite !nil_in_paths, code_path_cons. simpl.
      split; [auto | intros [[=]|H]; exact H].
    + rewrite (cons_in_paths_set_child _ _ _ _ _ _ Hslot), code_path_cons.
      pose proof Hslot as [_ Hl]%at_index_Ok.
      destruct (decide (j = Z.to_nat (base32ToIndex c))) as [->|Hne].
      * rewrite (IH _ _ Hwalk), paths_set_passCnt, cons_in_paths, Hl. split.
        -- intros [->|Hq]; [left; reflexivity|].
           destruct slot as [ch|]; [right; eauto|].
           rewrite paths_newNode in Hq. now apply elem_of_nil in Hq.
        -- intros [[= ->]|(ch & [= ->] & Hq)]; [left; reflexivity | right; exact Hq].
      * split; [auto | intros [[= Hj _]|H]; [congruence | exact H]].
Qed.

(** A write to the entry of a node changes no path. *)
Lemma update_target_paths (f : geoTireNode -> geoTireNode) (hash : string) :
  (∀ g, children (f g) = children g ∧ passCnt (f g) = passCnt g ∧
        end_ (f g) = end_ g) →
  ∀ move q, q ∈ paths (update_target move hash f) ↔ q ∈ paths move.
Proof.
  intros Hf. induction hash as [|c rest IH]; intros move q; cbn [update_target].
  - destruct (Hf move) as (Hc & _ & He). rewrite !paths_eq, Hc, He. reflexivity.
  - destruct (children move !! Z.to_nat (base32ToIndex c)) as [[ch|]|] eqn:Hl;
      try reflexivity.
    destruct q as [|j q].
    + rewrite !nil_in_paths. reflexivity.
    + rewrite !cons_in_paths. cbn [set_child set_children children].
      destruct (decide (j = Z.to_nat (base32ToIndex c))) as [->|Hne].
      * rewrite list_lookup_insert_eq by (eapply lookup_lt_Some; eassumption).
        rewrite Hl. split.
        -- intros (c0 & [= <-] & Hq). exists ch. split; [reflexivity|].
           now apply IH.
        -- intros (c0 & [= <-] & Hq). eexists. split; [reflexivity|].
           now apply IH.
      * rewrite list_lookup_insert_ne by auto. reflexivity.
Qed.

Lemma terminal_at_in_paths (move : geoTireNode) (hash : string) :
  terminal_at move hash = true → code_path hash ∈ paths move.
Proof.
  intros (tg & Hget & Hend)%terminal_at_true_get.
  apply elem_of_paths. exists tg. split; [|exact Hend].
  eapply get_from_walk_idx, Hget.
Qed.

(** [GeoAdd]: the stored codes afterwards are those before and the code of
    the point. *)
Lemma GeoAdd_locked_paths t points geoHash t' r :
  GeoAdd_locked t points geoHash = Ok (t', r) →
  ∀ q, q ∈ paths (root t') ↔ q = code_path geoHash ∨ q ∈ paths (root t).
Proof.
  unfold GeoAdd_locked, get.
  destruct (get_from (root t) geoHash) as [[target e]|] eqn:Hget;
    cbn [mbind result_bind]; [|discriminate].
  destruct (match target with Some tg => end_ tg | None => false end) eqn:Hfound.
  - intros [= <- <-] q. cbn [root].
    rewrite update_target_paths by (intros g; auto).
    split; [auto | intros [->|H]; [|exact H]].
    apply terminal_at_in_paths. unfold terminal_at. rewrite Hget.
    destruct target; [exact Hfound | discriminate].
  - destruct (add_walk _ _ _ _) as [r0|] eqn:Hwalk; cbn [mbind result_bind];
      [|discriminate].
    intros [= <- <-] q. cbn [root]. eapply add_walk_paths, Hwalk.
Qed.

Lemma single_path (g : geoTireNode) (p q : list nat) :
  terminals g = 1 → p ∈ paths g → q ∈ paths g → q = p.
Proof.
  rewrite terminals_paths. intros Hlen Hp Hq.
  destruct (paths g) as [|x [|y l]]; simpl in Hlen; try lia.
  apply list_elem_of_singleton in Hp, Hq. congruence.
Qed.

(** The deletion walk removes the index path of the code, and nothing
    else: the subtree it detaches held that one code. *)
Lemma del_walk_paths (hash : string) :
  ∀ move move',
    sub_ok move = true → terminal_at move hash = true →
    del_walk move hash = Ok move' →
    ∀ q, q ∈ paths move' ↔ q ∈ paths move ∧ q ≠ code_path hash.
Proof.
  induction hash as [|c rest IH]; intros move move' Hok Hterm; cbn [del_walk].
  - intros [= <-] [|j q].
    + rewrite !nil_in_paths. simpl. split; [discriminate | intros [_ H]; now elim H].
    + rewrite !cons_in_paths. simpl. split; [intros H; split; [exact H | discriminate] | tauto].
  - destruct (child_at move (base32ToIndex c)) as [slot|] eqn:Hslot;
      cbn [mbind result_bind]; [|discriminate].
    rewrite (terminal_at_cons _ _ _ _ Hslot) in Hterm.
    destruct slot as [ch|]; [|discriminate].
    pose proof (child_at_node_ok _ _ _ Hok Hslot) as (Hsub & Hcnt & Hpos)%node_ok_eq.
    pose proof Hslot as [_ Hl]%at_index_Ok.
    change (passCnt (set_passCnt ch (passCnt ch - 1))) with (passCnt ch - 1).
    destruct (passCnt ch - 1 =? 0) eqn:Hzero.
    + apply Z.eqb_eq in Hzero. intros [= <-] [|j q].
      * rewrite !nil_in_paths, code_path_cons. simpl.
        split; [intros H; split; [exact H | discriminate] | tauto].
      * rewrite (cons_in_paths_set_child _ _ _ _ _ _ Hslot), code_path_cons.
        destruct (decide (j = Z.to_nat (base32ToIndex c))) as [->|Hne].
        -- split; [intros [] | intros [Hq Hne]].
           apply cons_in_paths in Hq as (ch0 & Hl0 & Hq).
           rewrite Hl in Hl0. injection Hl0 as <-.
           apply Hne. f_equal.
           apply (single_path ch); [lia | now apply terminal_at_in_paths | exact Hq].
        -- split; [intros H; split; [exact H | congruence] | tauto].
    + destruct (del_walk _ rest) as [ch'|] eqn:Hwalk; cbn [mbind result_bind];
        [|discriminate].
      intros [= <-] [|j q].
      * rewrite !nil_in_paths, code_path_cons. simpl.
        split; [intros H; split; [exact H | discriminate] | tauto].
      * rewrite (cons_in_paths_set_child _ _ _ _ _ _ Hslot), code_path_cons.
        destruct (decide (j = Z.to_nat (base32ToIndex c))) as [->|Hne].
        -- rewrite (IH (set_passCnt ch (passCnt ch - 1)) ch' Hsub
                      ltac:(now rewrite terminal_at_set_passCnt) Hwalk).
           rewrite paths_set_passCnt, cons_in_paths, Hl. split.
           ++ intros [Hq Hne]. split; [eauto | congruence].
           ++ intros [(ch0 & [= <-] & Hq) Hne]. split; [exact Hq | congruence].
        -- split; [intros H; split; [exact H | congruence] | tauto].
Qed.

(** [GeoDel]: a successful deletion removes the code from the stored codes
    and keeps every other one. *)
Lemma GeoDel_paths t hash t' err :
  trie_inv t = true → GeoDel t hash = Ok (t', (true, err)) →
  code_path hash ∈ paths (root t) ∧
  ∀ q, q ∈ paths (root t') ↔ q ∈ paths (root t) ∧ q ≠ code_path hash.
Proof.
  unfold trie_inv, GeoDel, get. intros Hok.
  destruct (get_from (root t) hash) as [[target [e|]]|] eqn:Hget;
    cbn [mbind result_bind]; try discriminate.
  destruct target as [tg|]; [|discriminate].
  destruct (end_ tg) eqn:Hend; cbn [negb]; [|discriminate].
  assert (Hterm : terminal_at (root t) hash = true)
    by (unfold terminal_at; now rewrite Hget).
  destruct (del_walk (root t) hash) as [r|] eqn:Hwalk; cbn [mbind result_bind];
    [|discriminate].
  intros [= <- <-]. split; [now apply terminal_at_in_paths|].
  cbn [root]. now apply del_walk_paths.
Qed.

(** Tries of eight-symbol codes stay so. *)
Lemma codes_of_length_preserved (n : nat) t :
  trie_inv t = true → codes_of_length n t = true →
  (∀ points geoHash t' r,
     String.length geoHash = n →
     GeoAdd_locked t points geoHash = Ok (t', r) → codes_of_length n t' = true) ∧
  (∀ hash t' r, GeoDel t hash = Ok (t', r) → codes_of_length n t' = true).
Proof.
  intros Hok Hlen. split.
  - intros points geoHash t' r Hn Hadd. apply codes_of_length_spec.
    intros q [->|Hq]%(GeoAdd_locked_paths _ _ _ _ _ Hadd).
    + now rewrite code_path_length.
    + now apply (proj1 (codes_of_length_spec _ _) Hlen).
  - intros hash t' [[] err] Hdel.
    + apply codes_of_length_spec.
      intros q [Hq _]%(proj2 (GeoDel_paths _ _ _ _ Hok Hdel)).
      now apply (proj1 (codes_of_length_spec _ _) Hlen).
    + now apply GeoDel_error_unchanged in Hdel as [-> _].
Qed.

(** A write to the entry of a node changes no count. *)
Lemma update_target_counts (f : geoTireNode -> geoTireNode) (hash : string) :
  (∀ g, children (f g) = children g ∧ passCnt (f g) = passCnt g ∧
        end_ (f g) = end_ g) →
  ∀ move p, passCnt <$> walk_idx (update_target move hash f) p =
            passCnt <$> walk_idx move p.
Proof.
  intros Hf. induction hash as [|c rest IH]; intros move p; cbn [update_target].
  - destruct (Hf move) as (Hc & Hp & _).
    destruct p as [|i q]; simpl; [now rewrite Hp | now rewrite Hc].
  - destruct (children move !! Z.to_nat (base32ToIndex c)) as [[ch|]|] eqn:Hl;
      try reflexivity.
    destruct p as [|i q]; [reflexivity|].
    cbn [walk_idx set_child set_children children].
    destruct (decide (i = Z.to_nat (base32ToIndex c))) as [->|Hne].
    + rewrite list_lookup_insert_eq by (eapply lookup_lt_Some; eassumption).
      rewrite Hl. apply IH.
    + rewrite list_lookup_insert_ne by auto. reflexivity.
Qed.

(** [GeoAdd] of a point whose code is stored already leaves every count as
    it was. *)
Lemma GeoAdd_locked_duplicate t points geoHash t' r :
  stored t geoHash = true → GeoAdd_locked t points geoHash = Ok (t', r) →
  ∀ p, passCnt <$> walk_idx (root t') p = passCnt <$> walk_idx (root t) p.
Proof.
  unfold stored, terminal_at, GeoAdd_locked, get.
  destruct (get_from (root t) geoHash) as [[[tg|] e]|]; try discriminate.
  intros Hend. cbn [mbind result_bind]. rewrite Hend.
  intros [= <- <-] p. cbn [root]. apply update_target_counts. intros g. auto.
Qed.

(** ** The invariant, put together *)

Lemma trie_inv_new : trie_inv NewTireTreeGeoService = true.
Proof. reflexivity. Qed.

(** What the invariant says of a node below the root: its count is
    positive and is the number of distinct stored codes whose path passes
    through it. *)
Lemma trie_inv_node t hash g err :
  trie_inv t = true → hash ≠ "" → get t hash = Ok (Some g, err) →
  0 < passCnt g ∧ passCnt g = Z.of_nat (length (paths g)) ∧ NoDup (paths g) ∧
  ∀ q, q ∈ paths g ↔ code_path hash ++ q ∈ paths (root t).
Proof.
  unfold trie_inv, get. intros Hok Hne Hget.
  destruct hash as [|c rest]; [congruence|].
  pose proof (get_from_node_ok _ _ _ _ _ Hok Hget) as (_ & Hcnt & Hpos)%node_ok_eq.
  split; [exact Hpos|]. split; [now rewrite <- terminals_paths|].
  split; [apply NoDup_paths|].
  intros q. rewrite !elem_of_paths, walk_idx_app.
  now rewrite (get_from_walk_idx _ _ _ _ Hget).
Qed.

(** C6.  The invariant (every node below the root has 32 slots and a positive
    count equal to the number of terminal nodes of its subtree) is kept by
    every insertion and every deletion that returns.  An insertion adds the
    code to the stored codes if it is not among them, and the insertion of
    a code that is stored changes no count; and in a trie that satisfies the
    invariant every node [get] reaches below the root has a positive count,
    the number of distinct stored codes whose path passes through it. *)
Theorem trie_invariant_preserved t :
  trie_inv t = true →
  (∀ points geoHash t' r,
     GeoAdd_locked t points geoHash = Ok (t', r) →
     trie_inv t' = true ∧
     (∀ q, q ∈ paths (root t') ↔ q = code_path geoHash ∨ q ∈ paths (root t)) ∧
     (stored t geoHash = true →
      ∀ p, passCnt <$> walk_idx (root t') p = passCnt <$> walk_idx (root t) p)) ∧
  (∀ hash t' r, GeoDel t hash = Ok (t', r) → trie_inv t' = true) ∧
  (∀ hash g err,
     hash ≠ "" → get t hash = Ok (Some g, err) →
     0 < passCnt g ∧ passCnt g = Z.of_nat (length (paths g)) ∧
     NoDup (paths g) ∧
     ∀ q, q ∈ paths g ↔ code_path hash ++ q ∈ paths (root t)).
Proof.
  intros Hok. split; [|split].
  - intros points geoHash t' r Hadd. split; [|split].
    + eapply GeoAdd_locked_inv; eassumption.
    + eapply GeoAdd_locked_paths; eassumption.
    + intros Hst. eapply GeoAdd_locked_duplicate; eassumption.
  - intros hash t' r. now apply GeoDel_inv.
  - intros hash g err. now apply trie_inv_node.
Qed.

Lemma trie_invariant_preserved_witness :
  trie_inv (after trie_two_codes (GeoDel trie_two_codes "9C8FFG00")) = true.
Proof.
  destruct (trie_invariant_preserved trie_two_codes) as (_ & Hdel & _);
    [vm_compute; reflexivity|].
  apply (Hdel "9C8FFG00" _ (true, None)). vm_compute. reflexivity.
Defined.

(** Every trie the operations build satisfies the invariant and holds codes
    of the length inserted. *)
Lemma built_inv (n : nat) t :
  built n t → trie_inv t = true ∧ codes_of_length n t = true.
Proof.
  induction 1 as [|t points geoHash t' r _ [Hok Hlen] Hn Hadd
                   |t hash t' r _ [Hok Hlen] Hdel].
  - split; reflexivity.
  - split; [eapply GeoAdd_locked_inv; eassumption|].
    destruct (codes_of_length_preserved n t Hok Hlen) as [Ha _].
    eapply Ha; eassumption.
  - split; [eapply GeoDel_inv; eassumption|].
    destruct (codes_of_length_preserved n t Hok Hlen) as [_ Hd].
    eapply Hd; eassumption.
Qed.

(** * Further properties of the code *)

(** ** The decode function *)

Lemma base32ToIndex_inj (c1 c2 : ascii) :
  is_symbol c1 = true → base32ToIndex c1 = base32ToIndex c2 → c1 = c2.
Proof.
  set (back := λ z : Z,
        ascii_of_N (Z.to_N (if z <? 10 then z + 48
                            else if z <? 33 then z - 26 + 66
                            else z - 33 + 74 - (if z <? 35 then 0
                                                else if z <? 40 then 2
                                                else 4)))).
  assert (Hback : ∀ c, (base32ToIndex c =? -1) = false →
                       back (base32ToIndex c) = c).
  { intros c. destruct c as [[] [] [] [] [] [] [] []]; vm_compute;
      intros H; try reflexivity; discriminate H. }
  intros Hs Heq.
  assert (H1 : (base32ToIndex c1 =? -1) = false)
    by (rewrite base32ToIndex_reject, Hs; reflexivity).
  assert (H2 : (base32ToIndex c2 =? -1) = false) by (now rewrite <- Heq).
  rewrite <- (Hback c1 H1), <- (Hback c2 H2), Heq. reflexivity.
Qed.

(** X1.  [base32ToIndex] is not the inverse of the table, but it is
    injective on it: two bytes with the same index, one of them a symbol,
    are the same byte.  And the symbols it sends to one of the 32 slots are
    the first sixteen of the table, the digits and B..G; the other sixteen
    (H J K M N P..Z) go to 32 and beyond. *)
Theorem base32ToIndex_injective :
  (∀ c1 c2 : ascii,
     is_symbol c1 = true → base32ToIndex c1 = base32ToIndex c2 → c1 = c2) ∧
  (∀ c : ascii,
     is_symbol c = true →
     (base32ToIndex c <? 32) = bool_decide (c ∈ take 16 Base32) ∧
     (32 <=? base32ToIndex c) = bool_decide (c ∈ drop 16 Base32)).
Proof.
  split; [apply base32ToIndex_inj|].
  intros c. destruct c as [[] [] [] [] [] [] [] []]; vm_compute;
    intros H; try discriminate H; split; reflexivity.
Qed.

Lemma base32ToIndex_injective_witness : "B"%char = "B"%char.
Proof.
  apply (proj1 base32ToIndex_injective "B"%char "B"%char); reflexivity.
Defined.

(** ** Codes no operation can take *)

Lemma child_at_past_end (move : geoTireNode) (index : Z) :
  shape move = true → 32 <= index →
  child_at move index = Panic "index out of range".
Proof.
  intros [Hlen _]%shape_eq Hi. unfold child_at, at_index. rewrite Hlen.
  destruct (0 <=? index); [|reflexivity].
  destruct (index <? Z.of_nat 32) eqn:E; [apply Z.ltb_lt in E; lia|].
  reflexivity.
Qed.

Lemma get_from_past_end (move : geoTireNode) (c : ascii) (rest : string) :
  shape move = true → 32 <= base32ToIndex c →
  get_from move (String c rest) = Panic "index out of range".
Proof.
  intros Hshape Hc. cbn [get_from].
  destruct (base32ToIndex c =? -1) eqn:E; [apply Z.eqb_eq in E; lia|].
  now rewrite child_at_past_end.
Qed.

(** X2.  A code or prefix whose first symbol is one of the sixteen letters
    H J K M N P..Z (index 32 or more) makes every operation on the trie
    panic, whatever the trie holds: [get] indexes the 32 slots of the root
    with it. *)
Theorem operations_panic_past_end t (c : ascii) (rest : string) points :
  shape (root t) = true → 32 <= base32ToIndex c →
  GeoPosition t (String c rest) = Panic "index out of range" ∧
  GeoDel t (String c rest) = Panic "index out of range" ∧
  FindByPrefix t (String c rest) = Panic "index out of range" ∧
  GeoAdd_locked t points (String c rest) = Panic "index out of range".
Proof.
  intros Hshape Hc.
  unfold GeoPosition, GeoDel, FindByPrefix, GeoAdd_locked, get.
  rewrite (get_from_past_end _ _ _ Hshape Hc). repeat split.
Qed.

Lemma operations_panic_past_end_witness :
  GeoPosition NewTireTreeGeoService "Z0" = Panic "index out of range".
Proof.
  apply (operations_panic_past_end NewTireTreeGeoService "Z" "0" origin).
  - reflexivity.
  - vm_compute. discriminate.
Defined.

(** ** The 32 slots are kept *)

Lemma shape_set_child (g : geoTireNode) (i : Z) (o : option geoTireNode) :
  shape g = true → optb shape o = true → shape (set_child g i o) = true.
Proof.
  rewrite !shape_eq. simpl. rewrite length_insert.
  intros [Hlen Hall] Ho. split; [assumption|]. now apply forallb_insert.
Qed.

Lemma shape_same_children (g g' : geoTireNode) :
  children g' = children g → shape g = true → shape g' = true.
Proof. rewrite !shape_eq. now intros ->. Qed.

Lemma child_at_shape_Ok (move : geoTireNode) (index : Z) slot :
  shape move = true → child_at move index = Ok slot →
  0 <= index < 32 ∧ optb shape slot = true.
Proof.
  intros [Hlen Hall]%shape_eq [Hi Hl]%at_index_Ok. split; [lia|].
  apply (forallb_lookup _ _ _ _ Hall Hl).
Qed.

Lemma add_walk_shape (points : Points) (geoHash : string) (rest : string) :
  ∀ move move', shape move = true →
  add_walk move rest points geoHash = Ok move' → shape move' = true.
Proof.
  induction rest as [|c rest IH]; intros move move' Hshape; cbn [add_walk].
  - intros [= <-]. eapply shape_same_children; [|exact Hshape]. reflexivity.
  - destruct (child_at move (base32ToIndex c)) as [slot|] eqn:Hslot;
      cbn [mbind result_bind]; [|discriminate].
    destruct (add_walk _ rest points geoHash) as [ch'|] eqn:Hwalk;
      cbn [mbind result_bind]; [|discriminate].
    intros [= <-]. apply shape_set_child; [assumption|]. simpl.
    refine (IH _ _ _ Hwalk).
    destruct (child_at_shape_Ok _ _ _ Hshape Hslot) as [_ Hs].
    destruct slot as [ch|]; [|reflexivity].
    eapply shape_same_children; [|exact Hs]. reflexivity.
Qed.

Lemma del_walk_shape (hash : string) :
  ∀ move move', shape move = true →
  del_walk move hash = Ok move' → shape move' = true.
Proof.
  induction hash as [|c rest IH]; intros move move' Hshape; cbn [del_walk].
  - intros [= <-]. eapply shape_same_children; [|exact Hshape]. reflexivity.
  - destruct (child_at move (base32ToIndex c)) as [[ch|]|] eqn:Hslot;
      cbn [mbind result_bind]; try discriminate.
    destruct (child_at_shape_Ok _ _ _ Hshape Hslot) as [_ Hs]. simpl in Hs.
    destruct (passCnt _ =? 0).
    + intros [= <-]. now apply shape_set_child.
    + destruct (del_walk _ rest) as [ch'|] eqn:Hwalk; cbn [mbind result_bind];
        [|discriminate].
      intros [= <-]. apply shape_set_child; [assumption|]. simpl.
      refine (IH _ _ _ Hwalk).
      eapply shape_same_children; [|exact Hs]. reflexivity.
Qed.

Lemma update_target_shape (f : geoTireNode -> geoTireNode) (hash : string) :
  (∀ g, children (f g) = children g) →
  ∀ move, shape move = true → shape (update_target move hash f) = true.
Proof.
  intros Hf. induction hash as [|c rest IH]; intros move Hshape;
    cbn [update_target].
  - eapply shape_same_children; [apply Hf | exact Hshape].
  - destruct (children move !! Z.to_nat (base32ToIndex c)) as [[ch|]|] eqn:Hl;
      try assumption.
    pose proof Hshape as [_ Hall]%shape_eq.
    apply shape_set_child; [assumption|]. simpl. apply IH.
    apply (forallb_lookup _ _ _ _ Hall Hl).
Qed.

Lemma GeoAdd_locked_shape t points geoHash t' r :
  shape (root t) = true → GeoAdd_locked t points geoHash = Ok (t', r) →
  shape (root t') = true.
Proof.
  unfold GeoAdd_locked, get. intros Hshape.
  destruct (get_from (root t) geoHash) as [[target e]|];
    cbn [mbind result_bind]; [|discriminate].
  destruct (match target with Some tg => end_ tg | None => false end).
  - intros [= <- <-]. cbn [root]. now apply update_target_shape.
  - destruct (add_walk _ _ _ _) as [r0|] eqn:Hwalk; cbn [mbind result_bind];
      [|discriminate].
    intros [= <- <-]. cbn [root]. eapply add_walk_shape; eassumption.
Qed.

Lemma GeoDel_shape t hash t' r :
  shape (root t) = true → GeoDel t hash = Ok (t', r) → shape (root t') = true.
Proof.
  unfold GeoDel, get. intros Hshape.
  destruct (get_from (root t) hash) as [[target [e|]]|];
    cbn [mbind result_bind]; try discriminate.
  - intros [= <- <-]. assumption.
  - destruct target as [tg|]; [|intros [= <- <-]; assumption].
    destruct (end_ tg); cbn [negb]; [|intros [= <- <-]; assumption].
    destruct (del_walk (root t) hash) as [r0|] eqn:Hwalk;
      cbn [mbind result_bind]; [|discriminate].
    intros [= <- <-]. cbn [root]. eapply del_walk_shape; eassumption.
Qed.

Lemma node_ok_shape (g : geoTireNode) : node_ok g = true → shape g = true.
Proof.
  induction g as [g IH] using node_induction.
  intros ([Hlen Hall]%sub_ok_eq & _)%node_ok_eq. apply shape_eq.
  split; [assumption|]. apply forallb_forall. intros o Ho.
  rewrite forallb_forall in Hall. specialize (Hall o Ho).
  rewrite Forall_forall in IH. apply list_elem_of_In in Ho.
  specialize (IH o Ho). destruct o as [c|]; [|reflexivity]. simpl. auto.
Qed.

Lemma trie_inv_shape t : trie_inv t = true → shape (root t) = true.
Proof.
  unfold trie_inv. intros [Hlen Hall]%sub_ok_eq. apply shape_eq.
  split; [assumption|]. apply forallb_forall. intros o Ho.
  rewrite forallb_forall in Hall. specialize (Hall o Ho).
  destruct o as [c|]; [|reflexivity]. simpl. now apply node_ok_shape.
Qed.

(** ** The codes an insertion can take *)

Lemma usable_code_cons (c : ascii) (rest : string) :
  usable_code (String c rest) = true ↔
  0 <= base32ToIndex c < 32 ∧ usable_code rest = true.
Proof.
  unfold usable_code, slot_symbol. simpl.
  rewrite !andb_true_iff, Z.leb_le, Z.ltb_lt. reflexivity.
Qed.

Lemma usable_safe (s : string) : usable_code s = true → safe_code s = true.
Proof.
  induction s as [|c rest IH]; [reflexivity|].
  intros [Hc Hrest]%usable_code_cons. apply safe_code_cons. split; [lia | auto].
Qed.

Lemma add_walk_total (points : Points) (geoHash : string) (rest : string) :
  ∀ move, shape move = true → usable_code rest = true →
  ∃ move', add_walk move rest points geoHash = Ok move'.
Proof.
  induction rest as [|c rest IH]; intros move Hshape Hus; cbn [add_walk].
  - eauto.
  - apply usable_code_cons in Hus as [Hc Hus].
    destruct (child_at_shape move _ Hshape Hc) as (slot & -> & Hs).
    cbn [mbind result_bind].
    destruct (IH (set_passCnt match slot with Some ch => ch | None => newNode end
                    (passCnt match slot with Some ch => ch | None => newNode end + 1)))
      as [ch' ->]; [|exact Hus|cbn [mbind result_bind]; eauto].
    destruct slot as [ch|]; [|reflexivity].
    eapply shape_same_children; [|exact Hs]. reflexivity.
Qed.

Lemma add_walk_usable (points : Points) (geoHash : string) (rest : string) :
  ∀ move move', shape move = true →
  add_walk move rest points geoHash = Ok move' → usable_code rest = true.
Proof.
  induction rest as [|c rest IH]; intros move move' Hshape; cbn [add_walk];
    [reflexivity|].
  destruct (child_at move (base32ToIndex c)) as [slot|] eqn:Hslot;
    cbn [mbind result_bind]; [|discriminate].
  destruct (add_walk _ rest points geoHash) as [ch'|] eqn:Hwalk;
    cbn [mbind result_bind]; [|discriminate].
  intros _. destruct (child_at_shape_Ok _ _ _ Hshape Hslot) as [Hc Hs].
  apply usable_code_cons. split; [exact Hc|].
  refine (IH _ _ _ Hwalk).
  destruct slot as [ch|]; [|reflexivity].
  eapply shape_same_children; [|exact Hs]. reflexivity.
Qed.

Lemma get_from_Some_usable (hash : string) :
  ∀ move tg err, shape move = true →
  get_from move hash = Ok (Some tg, err) → usable_code hash = true.
Proof.
  induction hash as [|c rest IH]; intros move tg err Hshape; cbn [get_from];
    [reflexivity|].
  destruct (base32ToIndex c =? -1); [discriminate|].
  destruct (child_at move (base32ToIndex c)) as [[ch|]|] eqn:Hslot;
    cbn [mbind result_bind]; try discriminate.
  destruct (child_at_shape_Ok _ _ _ Hshape Hslot) as [Hc Hs].
  intros Hget. apply usable_code_cons. split; [exact Hc|]. eapply IH; eassumption.
Qed.

Lemma GeoAdd_locked_usable t points geoHash t' r :
  shape (root t) = true → GeoAdd_locked t points geoHash = Ok (t', r) →
  usable_code geoHash = true.
Proof.
  unfold GeoAdd_locked, get. intros Hshape.
  destruct (get_from (root t) geoHash) as [[target e]|] eqn:Hget;
    cbn [mbind result_bind]; [|discriminate].
  destruct (match target with Some tg => end_ tg | None => false end) eqn:Hfound.
  - intros _. destruct target as [tg|]; [|discriminate].
    eapply get_from_Some_usable; eassumption.
  - destruct (add_walk _ _ _ _) as [r0|] eqn:Hwalk; cbn [mbind result_bind];
      [|discriminate].
    intros _. eapply add_walk_usable; eassumption.
Qed.

(** X3.  The critical section of [GeoAdd] returns exactly for the codes
    made of digits and the letters B..G (the symbols sent to slots 0..31):
    for such a code it returns [true], whatever the trie; for any other
    code, one with a letter H..Z or a byte outside the alphabet, it panics.
    The standard code of San Francisco, "9Q8YYK8Y", cannot be inserted. *)
Theorem GeoAdd_locked_returns_iff t points geoHash :
  shape (root t) = true →
  (usable_code geoHash = true →
   ∃ t' err, GeoAdd_locked t points geoHash = Ok (t', (true, err)) ∧
             shape (root t') = true) ∧
  (usable_code geoHash = false →
   ∃ msg, GeoAdd_locked t points geoHash = Panic msg).
Proof.
  intros Hshape. split.
  - intros Hus.
    assert (∃ t' r, GeoAdd_locked t points geoHash = Ok (t', r))
      as (t' & [b err] & Hadd).
    { unfold GeoAdd_locked, get.
      destruct (get_from_total (root t) geoHash Hshape (usable_safe _ Hus))
        as (target & e & ->). cbn [mbind result_bind].
      destruct (match target with Some tg => end_ tg | None => false end);
        [eauto|].
      destruct (add_walk_total points geoHash geoHash (root t) Hshape Hus)
        as [r0 ->]. cbn [mbind result_bind]. eauto. }
    pose proof (GeoAdd_locked_result _ _ _ _ _ _ Hadd) as [-> _].
    exists t', err. split; [exact Hadd|].
    eapply GeoAdd_locked_shape; eassumption.
  - intros Hus.
    destruct (GeoAdd_locked t points geoHash) as [[t' r]|msg] eqn:Hadd;
      [|eauto].
    rewrite (GeoAdd_locked_usable _ _ _ _ _ Hshape Hadd) in Hus. discriminate.
Qed.

Lemma GeoAdd_locked_returns_iff_witness :
  ∃ msg, GeoAdd_locked trie_two_codes san_francisco "9Q8YYK8Y" = Panic msg.
Proof.
  apply (GeoAdd_locked_returns_iff trie_two_codes san_francisco "9Q8YYK8Y");
    vm_compute; reflexivity.
Defined.

(** ** Points under one code *)

(** X4.  Points that share a stored code accumulate in insertion order: the
    insertion returns [true] with a nil error, and the lookup of the code
    then returns the points it returned before followed by the new one. *)
Theorem GeoAdd_locked_accumulates t points geoHash :
  stored t geoHash = true →
  ∃ t' pts,
    GeoPosition t geoHash = Ok (pts, None) ∧
    GeoAdd_locked t points geoHash = Ok (t', (true, None)) ∧
    GeoPosition t' geoHash = Ok (pts ++ [points], None).
Proof.
  intros (tg & Hget & Hend)%terminal_at_true_get.
  unfold GeoPosition, GeoAdd_locked, get. rewrite Hget.
  cbn [mbind result_bind]. rewrite Hend. cbn [negb].
  eexists _, _. split; [reflexivity|]. split; [reflexivity|].
  cbn [root]. rewrite (update_target_get _ _ _ _ _ Hget).
  cbn [mbind result_bind set_entry end_ entry]. rewrite Hend. cbn [negb].
  now rewrite GeoEntry_get_add.
Qed.

Lemma GeoAdd_locked_accumulates_witness :
  ∃ t' pts,
    GeoPosition trie_two_codes "9C8FFG00" = Ok (pts, None) ∧
    GeoAdd_locked trie_two_codes p2 "9C8FFG00" = Ok (t', (true, None)) ∧
    GeoPosition t' "9C8FFG00" = Ok (pts ++ [p2], None).
Proof.
  apply (GeoAdd_locked_accumulates trie_two_codes p2 "9C8FFG00").
  vm_compute. reflexivity.
Defined.

(** ** What a lookup returns *)

Lemma points_at_cons (g : geoTireNode) (i : nat) (q : list nat) (hash : string) :
  points_at g (i :: q) hash =
  match children g !! i with
  | Some (Some c) => points_at c q hash
  | _ => []
  end.
Proof.
  unfold points_at. simpl. destruct (children g !! i) as [[c|]|]; reflexivity.
Qed.

Lemma points_at_same (g g' : geoTireNode) (q : list nat) (hash : string) :
  children g' = children g → end_ g' = end_ g →
  GeoEntry_get (entry g') hash = GeoEntry_get (entry g) hash →
  points_at g' q hash = points_at g q hash.
Proof.
  intros Hc He Hen. destruct q as [|i q].
  - unfold points_at. simpl. now rewrite He, Hen.
  - now rewrite !points_at_cons, Hc.
Qed.


Lemma points_at_set_child (g : geoTireNode) (i : Z) (slot o : option geoTireNode)
    (j : nat) (q : list nat) (hash : string) :
  child_at g i = Ok slot →
  points_at (set_child g i o) (j :: q) hash =
  if decide (j = Z.to_nat i) then
    match o with
    | Some c => points_at c q hash
    | None => []
    end
  else points_at g (j :: q) hash.
Proof.
  intros [Hi Hl]%at_index_Ok. rewrite !points_at_cons.
  cbn [set_child set_children children].
  destruct (decide (j = Z.to_nat i)) as [->|Hne].
  - rewrite list_lookup_insert_eq by lia. reflexivity.
  - rewrite list_lookup_insert_ne by auto. reflexivity.
Qed.

Lemma usable_all_symbols (s : string) :
  usable_code s = true → all_symbols s = true.
Proof.
  induction s as [|c rest IH]; [reflexivity|].
  intros [Hc Hrest]%usable_code_cons. unfold all_symbols. simpl.
  apply andb_true_iff. split; [|now apply IH].
  pose proof (base32ToIndex_reject c) as Hrej.
  destruct (is_symbol c); [reflexivity|].
  simpl in Hrej. apply Z.eqb_eq in Hrej. lia.
Qed.

Lemma all_symbols_cons (c : ascii) (rest : string) :
  all_symbols (String c rest) = true ↔
  is_symbol c = true ∧ all_symbols rest = true.
Proof. unfold all_symbols. simpl. apply andb_true_iff. Qed.

Lemma is_symbol_nonneg (c : ascii) : is_symbol c = true → 0 <= base32ToIndex c.
Proof.
  intros Hs. pose proof (base32ToIndex_reject c) as Hrej.
  rewrite Hs in Hrej. simpl in Hrej. apply Z.eqb_neq in Hrej.
  pose proof (base32ToIndex_bounds c). lia.
Qed.

(** Distinct codes made of symbols have distinct index paths. *)
Lemma code_path_inj (h : string) :
  ∀ h', all_symbols h = true → all_symbols h' = true →
  code_path h = code_path h' → h = h'.
Proof.
  induction h as [|c rest IH]; intros [|c' rest']; try discriminate;
    [reflexivity|].
  intros [Hc Hr]%all_symbols_cons [Hc' Hr']%all_symbols_cons.
  rewrite !code_path_cons. intros [= Hidx Hrest].
  apply Z2Nat.inj in Hidx; try now apply is_symbol_nonneg.
  f_equal; [now apply base32ToIndex_inj | now apply IH].
Qed.

(** X5.  What [GeoPosition] returns on a code without the letters H..Z: the
    points of the entry, without error, when the index path of the code ends
    at a terminal node; nothing, without error, when the path ends at a node
    that is not terminal; nothing, with [ErrInvalidHash], when the path
    breaks or the code has a byte outside the alphabet. *)
Theorem GeoPosition_spec t hash :
  shape (root t) = true → safe_code hash = true →
  GeoPosition t hash =
  Ok (match (if all_symbols hash then walk_idx (root t) (code_path hash)
             else None) with
      | Some tg => (if end_ tg then GeoEntry_get (entry tg) hash else [], None)
      | None => ([], Some ErrInvalidHash)
      end).
Proof.
  intros Hshape Hsafe. unfold GeoPosition, get.
  rewrite (get_from_safe _ _ Hshape Hsafe).
  destruct (all_symbols hash); [|reflexivity].
  destruct (walk_idx _ _) as [tg|]; [|reflexivity].
  cbn [mbind result_bind]. destruct (end_ tg); reflexivity.
Qed.

Lemma GeoPosition_spec_witness :
  GeoPosition trie_0B_0 "0C" = Ok ([], Some ErrInvalidHash).
Proof.
  apply (GeoPosition_spec trie_0B_0 "0C"); vm_compute; reflexivity.
Defined.

Lemma GeoPosition_points t hash :
  shape (root t) = true → safe_code hash = true →
  ∃ err, GeoPosition t hash =
         Ok (if all_symbols hash then points_at (root t) (code_path hash) hash
             else [], err).
Proof.
  intros Hshape Hsafe. unfold GeoPosition, get, points_at.
  rewrite (get_from_safe _ _ Hshape Hsafe).
  destruct (all_symbols hash); [|eauto].
  destruct (walk_idx _ _) as [tg|]; [|eauto].
  cbn [mbind result_bind]. destruct (end_ tg); eauto.
Qed.

(** ** Other codes are left alone *)

Lemma GeoEntry_get_add_ne (g : GeoEntry) (p : Points) (hash hash' : string) :
  hash ≠ hash' →
  GeoEntry_get (GeoEntry_add g p hash) hash' = GeoEntry_get g hash'.
Proof.
  intros Hne. unfold GeoEntry_get, GeoEntry_add. simpl.
  rewrite lookup_insert_ne by exact Hne.
  destruct (Points_ g); [reflexivity|]. now rewrite lookup_empty.
Qed.





Lemma del_walk_points_at (hash : string) :
  ∀ move move',
    sub_ok move = true → terminal_at move hash = true →
    del_walk move hash = Ok move' →
    ∀ q hash', q ≠ code_path hash →
    points_at move' q hash' = points_at move q hash'.
Proof.
  induction hash as [|c rest IH]; intros move move' Hok Hterm; cbn [del_walk].
  - intros [= <-] [|j q] hash' Hq; [now elim Hq|].
    now rewrite !points_at_cons.
  - destruct (child_at move (base32ToIndex c)) as [slot|] eqn:Hslot;
      cbn [mbind result_bind]; [|discriminate].
    rewrite (terminal_at_cons _ _ _ _ Hslot) in Hterm.
    destruct slot as [ch|]; [|discriminate].
    pose proof (child_at_node_ok _ _ _ Hok Hslot) as (Hsub & Hcnt & Hpos)%node_ok_eq.
    pose proof Hslot as [_ Hl]%at_index_Ok.
    change (passCnt (set_passCnt ch (passCnt ch - 1))) with (passCnt ch - 1).
    destruct (passCnt ch - 1 =? 0) eqn:Hzero.
    + apply Z.eqb_eq in Hzero. intros [= <-] [|j q] hash' Hq; [reflexivity|].
      rewrite (points_at_set_child _ _ _ _ _ _ _ Hslot).
      destruct (decide (j = Z.to_nat (base32ToIndex c))) as [->|Hne];
        [|reflexivity].
      rewrite points_at_cons, Hl. unfold points_at.
      destruct (walk_idx ch q) as [tg|] eqn:Hw; [|reflexivity].
      destruct (end_ tg) eqn:Hend; [|reflexivity].
      exfalso. apply Hq. rewrite code_path_cons. f_equal.
      apply (single_path ch); [lia | now apply terminal_at_in_paths|].
      apply elem_of_paths. eauto.
    + destruct (del_walk _ rest) as [ch'|] eqn:Hwalk; cbn [mbind result_bind];
        [|discriminate].
      intros [= <-] [|j q] hash' Hq; [reflexivity|].
      rewrite (points_at_set_child _ _ _ _ _ _ _ Hslot).
      destruct (decide (j = Z.to_nat (base32ToIndex c))) as [->|Hne];
        [|reflexivity].
      rewrite code_path_cons in Hq.
      rewrite (IH (set_passCnt ch (passCnt ch - 1)) ch' Hsub
                 ltac:(now rewrite terminal_at_set_passCnt) Hwalk q hash')
        by congruence.
      rewrite points_at_cons, Hl. now apply points_at_same.
Qed.

(** X7.  In a trie that satisfies the count invariant, a deletion changes
    the lookup of no other code: for every code [hash'] other than the one
    deleted (and without the letters H..Z), [GeoPosition] returns the same
    points after [GeoDel] as before.  The subtree a deletion detaches holds
    no other code. *)
Theorem GeoDel_frame t hash t' r hash' :
  trie_inv t = true → safe_code hash' = true → hash' ≠ hash →
  GeoDel t hash = Ok (t', r) →
  ∃ pts err err', GeoPosition t hash' = Ok (pts, err) ∧
                  GeoPosition t' hash' = Ok (pts, err').
Proof.
  intros Hok Hsafe Hne Hdel.
  pose proof (trie_inv_shape _ Hok) as Hshape.
  pose proof (GeoDel_shape _ _ _ _ Hshape Hdel) as Hshape'.
  destruct (GeoPosition_points t hash' Hshape Hsafe) as [err ->].
  destruct (GeoPosition_points t' hash' Hshape' Hsafe) as [err' ->].
  exists (if all_symbols hash' then points_at (root t) (code_path hash') hash'
          else []), err, err'.
  split; [reflexivity|].
  destruct (all_symbols hash') eqn:Hall; [|reflexivity].
  do 2 f_equal. revert Hdel. unfold GeoDel, get.
  destruct (get_from (root t) hash) as [[target [e|]]|] eqn:Hget;
    cbn [mbind result_bind]; try discriminate.
  - now intros [= <- <-].
  - destruct target as [tg|]; [|now intros [= <- <-]].
    destruct (end_ tg) eqn:Hend; cbn [negb]; [|now intros [= <- <-]].
    destruct (del_walk (root t) hash) as [r0|] eqn:Hwalk;
      cbn [mbind result_bind]; [|discriminate].
    intros [= <- <-]. cbn [root].
    eapply del_walk_points_at; [exact Hok | | exact Hwalk |].
    + unfold terminal_at. now rewrite Hget.
    + intros Heq. apply Hne. apply code_path_inj; auto.
      apply usable_all_symbols.
      eapply get_from_Some_usable; [exact Hshape | exact Hget].
Qed.

Lemma GeoDel_frame_witness :
  ∃ pts err err',
    GeoPosition trie_two_codes "9C8FFG8F" = Ok (pts, err) ∧
    GeoPosition (after trie_two_codes (GeoDel trie_two_codes "9C8FFG00"))
      "9C8FFG8F" = Ok (pts, err').
Proof.
  apply (GeoDel_frame trie_two_codes "9C8FFG00" _ (true, None) "9C8FFG8F");
    try (vm_compute; reflexivity).
  discriminate.
Defined.

(** ** Deletion undoes insertion *)

Lemma set_child_set_child (g : geoTireNode) (i : Z) (a b : option geoTireNode) :
  set_child (set_child g i a) i b = set_child g i b.
Proof.
  unfold set_child, set_children. cbn [children passCnt end_ entry].
  now rewrite list_insert_insert_eq.
Qed.

Lemma set_child_id (g : geoTireNode) (i : Z) (slot : option geoTireNode) :
  child_at g i = Ok slot → set_child g i slot = g.
Proof.
  intros [_ Hl]%at_index_Ok. unfold set_child, set_children.
  rewrite (list_insert_id _ _ _ Hl). now destruct g.
Qed.

Lemma set_passCnt_back (g : geoTireNode) (n : Z) :
  set_passCnt (set_passCnt g n) (passCnt g) = g.
Proof. now destruct g. Qed.

Lemma del_walk_set_passCnt (g : geoTireNode) (n : Z) (hash : string) :
  del_walk (set_passCnt g n) hash =
  g' ← del_walk g hash; Ok (set_passCnt g' n).
Proof.
  destruct hash as [|c rest]; [reflexivity|]. cbn [del_walk].
  change (child_at (set_passCnt g n) (base32ToIndex c))
    with (child_at g (base32ToIndex c)).
  destruct (child_at g (base32ToIndex c)) as [[ch|]|]; cbn [mbind result_bind];
    try reflexivity.
  destruct (passCnt _ =? 0); [reflexivity|].
  destruct (del_walk _ rest); reflexivity.
Qed.

Lemma get_from_None_terminal (move : geoTireNode) (hash : string) err :
  get_from move hash = Ok (None, err) → terminal_at move hash = false.
Proof. unfold terminal_at. now intros ->. Qed.

Lemma add_del_walk (points : Points) (geoHash : string) (rest : string) :
  ∀ move move' err,
    sub_ok move = true → get_from move rest = Ok (None, err) →
    add_walk move rest points geoHash = Ok move' →
    del_walk move' rest = Ok move.
Proof.
  induction rest as [|c rest IH]; intros move move' err Hok Hget;
    [discriminate|].
  cbn [add_walk].
  destruct (child_at move (base32ToIndex c)) as [slot|] eqn:Hslot;
    cbn [mbind result_bind]; [|discriminate].
  destruct (add_walk _ rest points geoHash) as [ch'|] eqn:Hwalk;
    cbn [mbind result_bind]; [|discriminate].
  intros [= <-]. cbn [del_walk].
  rewrite (child_at_set_child _ _ _ _ Hslot). cbn [mbind result_bind].
  change (passCnt (set_passCnt ch' (passCnt ch' - 1))) with (passCnt ch' - 1).
  cbn [get_from] in Hget. rewrite (child_at_not_minus1 _ _ _ Hslot), Hslot in Hget.
  cbn [mbind result_bind] in Hget.
  destruct slot as [ch0|].
  - pose proof (child_at_node_ok _ _ _ Hok Hslot) as (Hsub & Hcnt & Hpos)%node_ok_eq.
    assert (Hget1 : get_from (set_passCnt ch0 (passCnt ch0 + 1)) rest = Ok (None, err))
      by (destruct rest; [discriminate | exact Hget]).
    assert (Hsub1 : sub_ok (set_passCnt ch0 (passCnt ch0 + 1)) = true)
      by exact Hsub.
    destruct (add_walk_ok _ _ _ _ _ Hsub1 (get_from_None_terminal _ _ _ Hget1) Hwalk)
      as (_ & _ & Hc').
    cbn [set_passCnt passCnt] in Hc'.
    destruct (passCnt ch' - 1 =? 0) eqn:Hz; [apply Z.eqb_eq in Hz; lia|].
    rewrite del_walk_set_passCnt, (IH _ _ _ Hsub1 Hget1 Hwalk).
    cbn [mbind result_bind]. rewrite set_child_set_child. f_equal.
    replace (passCnt ch' - 1) with (passCnt ch0) by lia.
    rewrite set_passCnt_back. now apply set_child_id.
  - assert (Hnew : terminal_at (set_passCnt newNode (passCnt newNode + 1)) rest = false)
      by (rewrite terminal_at_set_passCnt; apply terminal_at_newNode).
    assert (Hsubn : sub_ok (set_passCnt newNode (passCnt newNode + 1)) = true)
      by reflexivity.
    destruct (add_walk_ok _ _ _ _ _ Hsubn Hnew Hwalk) as (_ & _ & Hc').
    cbn [set_passCnt passCnt newNode] in Hc'. rewrite Hc'. cbn [Z.eqb Z.sub Z.add Z.opp Z.pos_sub].
    rewrite set_child_set_child. f_equal. now apply set_child_id.
Qed.

(** X8.  In a trie that satisfies the count invariant, the insertion of a
    code that has no path yet followed by the deletion of that code gives
    the trie back exactly as it was: the counts, the detached nodes and all
    the entries. *)
Theorem GeoAdd_GeoDel_restores t points geoHash t' r :
  trie_inv t = true → get t geoHash = Ok (None, Some ErrInvalidHash) →
  GeoAdd_locked t points geoHash = Ok (t', r) →
  GeoDel t' geoHash = Ok (t, (true, None)).
Proof.
  unfold trie_inv, GeoAdd_locked, GeoDel. intros Hok Hget. rewrite Hget.
  cbn [mbind result_bind]. unfold get in Hget.
  destruct (add_walk _ _ _ _) as [r0|] eqn:Hwalk; cbn [mbind result_bind];
    [|discriminate].
  intros [= <- <-]. unfold get. cbn [root].
  destruct (add_walk_get _ _ _ _ _ Hwalk) as (tg & -> & Hend & _).
  cbn [mbind result_bind]. rewrite Hend. cbn [negb].
  rewrite (add_del_walk _ _ _ _ _ _ Hok Hget Hwalk). cbn [mbind result_bind].
  now destruct t.
Qed.

Lemma GeoAdd_GeoDel_restores_witness :
  GeoDel trie_two_codes "9C8FFG00" =
  Ok (after NewTireTreeGeoService
        (GeoAdd_locked NewTireTreeGeoService origin "9C8FFG8F"), (true, None)).
Proof.
  apply (GeoAdd_GeoDel_restores _ p1 "9C8FFG00" trie_two_codes
           (true, Some ErrInvalidHash)); vm_compute; reflexivity.
Defined.

(** ** What a deletion returns *)

(** X9.  On a code without the letters H..Z, [GeoDel] returns [true] exactly
    when the code is stored.  When it is not, the trie is returned unchanged
    with [ErrInvalidHash].  When it is, the error is nil and the code is gone:
    [GeoPosition] of it returns no point, and a second [GeoDel] fails with
    [ErrInvalidHash] and changes nothing. *)
Theorem GeoDel_outcome t hash :
  shape (root t) = true → safe_code hash = true →
  ∃ t' err,
    GeoDel t hash = Ok (t', (stored t hash, err)) ∧
    (stored t hash = false → t' = t ∧ err = Some ErrInvalidHash) ∧
    (stored t hash = true →
     err = None ∧
     (∃ err', GeoPosition t' hash = Ok ([], err')) ∧
     GeoDel t' hash = Ok (t', (false, Some ErrInvalidHash))).
Proof.
  intros Hshape Hsafe.
  destruct (GeoDel_returns t hash Hshape Hsafe) as (t' & b & err & Hdel & _ & _).
  assert (Hb : b = stored t hash ∧ (b = true → err = None)).
  { revert Hdel. unfold GeoDel, stored, terminal_at, get.
    destruct (get_from (root t) hash) as [[target e]|] eqn:Hget;
      cbn [mbind result_bind]; [|discriminate].
    destruct (get_from_cases _ _ _ _ Hget) as [(tg & -> & ->)|[-> ->]].
    - destruct (end_ tg); cbn [negb].
      + destruct (del_walk (root t) hash); cbn [mbind result_bind];
          [|discriminate].
        intros [= <- <- <-]. auto.
      + intros [= <- <- <-]. split; [reflexivity | discriminate].
    - intros [= <- <- <-]. split; [reflexivity | discriminate]. }
  destruct Hb as [-> Herr]. exists t', err. split; [exact Hdel|].
  split.
  - intros Hst. rewrite Hst in Hdel. now apply GeoDel_error_unchanged in Hdel.
  - intros Hst. rewrite Hst in Hdel. split; [auto|].
    pose proof (GeoDel_not_stored _ _ _ _ Hdel) as Hgone.
    pose proof (GeoDel_shape _ _ _ _ Hshape Hdel) as Hshape'.
    destruct (get_from_total (root t') hash Hshape' Hsafe) as (target & e & Hget).
    unfold stored, terminal_at in Hgone.
    unfold GeoPosition, GeoDel, get. rewrite Hget in *.
    cbn [mbind result_bind].
    destruct (get_from_cases _ _ _ _ Hget) as [(tg & -> & ->)|[-> ->]].
    + rewrite Hgone. cbn [negb]. eauto.
    + eauto.
Qed.

Lemma GeoDel_outcome_witness :
  ∃ t' err,
    GeoDel trie_two_codes "9C8FFG00" =
      Ok (t', (stored trie_two_codes "9C8FFG00", err)) ∧
    (stored trie_two_codes "9C8FFG00" = false →
     t' = trie_two_codes ∧ err = Some ErrInvalidHash) ∧
    (stored trie_two_codes "9C8FFG00" = true →
     err = None ∧
     (∃ err', GeoPosition t' "9C8FFG00" = Ok ([], err')) ∧
     GeoDel t' "9C8FFG00" = Ok (t', (false, Some ErrInvalidHash))).
Proof.
  apply (GeoDel_outcome trie_two_codes "9C8FFG00"); vm_compute; reflexivity.
Defined.

(** ** The traversal *)

Lemma dfs_slots_paths (F : list nat → option GeoEntry)
    (cs : list (option geoTireNode)) :
  Forall (λ o, match o with
               | Some c => ∃ es, dfs c = (es, None, []) ∧
                                 Some <$> es = (λ q, entry <$> walk_idx c q) <$> paths c
               | None => True
               end) cs →
  ∀ k entries,
    (∀ i c q, cs !! i = Some (Some c) →
              F ((k + i)%nat :: q) = entry <$> walk_idx c q) →
    ∃ es, dfs_slots cs entries [] = (entries ++ es, None, []) ∧
          Some <$> es = F <$> paths_slots k cs.
Proof.
  induction 1 as [|[c|] cs Hc _ IH]; intros k entries HF; simpl.
  - exists []. now rewrite app_nil_r.
  - destruct Hc as (esc & -> & Hesc).
    destruct (IH (S k) (entries ++ esc)) as (es & -> & Hes).
    { intros i c' q Hl. rewrite <- (HF (S i) c' q Hl). f_equal. f_equal. lia. }
    exists (esc ++ es). split; [now rewrite app_assoc|].
    rewrite !fmap_app, Hes, Hesc, <- list_fmap_compose. f_equal.
    apply list_fmap_ext. intros _ q _. simpl.
    rewrite <- (HF 0%nat c q eq_refl). now rewrite Nat.add_0_r.
  - destruct (IH (S k) entries) as (es & -> & Hes); [|eauto].
    intros i c' q Hl. rewrite <- (HF (S i) c' q Hl). f_equal. f_equal. lia.
Qed.

Lemma dfs_paths (g : geoTireNode) :
  ∃ es, dfs g = (es, None, []) ∧
        Some <$> es = (λ p, entry <$> walk_idx g p) <$> paths g.
Proof.
  induction g as [g IH] using node_induction.
  rewrite dfs_eq, paths_eq.
  destruct (dfs_slots_paths (λ p, entry <$> walk_idx g p) (children g) IH 0
              (if end_ g then [entry g] else [])) as (es & -> & Hes).
  { intros i c q Hl. simpl. now rewrite Hl. }
  eexists. split; [reflexivity|].
  rewrite !fmap_app, Hes. f_equal. now destruct (end_ g).
Qed.

(** X10.  [dfs] returns no error and logs nothing, and its result lists the
    entries of the terminal nodes of the subtree, one for each, in pre-order:
    the node itself first, then its children by ascending slot.  There are as
    many as there are terminal nodes. *)
Theorem dfs_preorder (g : geoTireNode) :
  ∃ es, dfs g = (es, None, []) ∧
        Some <$> es = (λ p, entry <$> walk_idx g p) <$> paths g ∧
        Z.of_nat (length es) = terminals g.
Proof.
  destruct (dfs_paths g) as (es & Hdfs & Hes). exists es.
  split; [exact Hdfs|]. split; [exact Hes|].
  rewrite terminals_paths. f_equal.
  apply (f_equal length) in Hes. now rewrite !length_fmap in Hes.
Qed.

(** X11.  In a trie that satisfies the count invariant, [FindByPrefix] of a
    prefix that is not empty and whose path exists returns, without error,
    as many entries as the passage count of the node the prefix leads to. *)
Theorem FindByPrefix_count t prefix g err :
  trie_inv t = true → prefix ≠ "" → get t prefix = Ok (Some g, err) →
  ∃ es, FindByPrefix t prefix = Ok (es, None, []) ∧
        Z.of_nat (length es) = passCnt g.
Proof.
  intros Hok Hne Hget. unfold FindByPrefix. rewrite Hget.
  destruct (get_from_cases _ _ _ _ Hget) as [(? & _ & ->)|[[=] _]].
  cbn [mbind result_bind].
  destruct (dfs_paths g) as (es & -> & Hes). exists es.
  split; [reflexivity|].
  destruct prefix as [|c rest]; [congruence|].
  pose proof (get_from_node_ok _ _ _ _ _ Hok Hget) as (_ & -> & _)%node_ok_eq.
  rewrite terminals_paths. f_equal.
  apply (f_equal length) in Hes. now rewrite !length_fmap in Hes.
Qed.

Lemma FindByPrefix_count_witness :
  ∃ g err es,
    get trie_two_codes "9C8FFG" = Ok (Some g, err) ∧
    FindByPrefix trie_two_codes "9C8FFG" = Ok (es, None, []) ∧
    Z.of_nat (length es) = passCnt g ∧ passCnt g = 2.
Proof.
  assert (Hg : ∃ g err, get trie_two_codes "9C8FFG" = Ok (Some g, err) ∧
                        passCnt g = 2)
    by (vm_compute; eexists _, _; split; reflexivity).
  destruct Hg as (g & err & Hg & Hcnt).
  destruct (FindByPrefix_count trie_two_codes "9C8FFG" g err) as (es & H1 & H2);
    [vm_compute; reflexivity | discriminate | exact Hg |].
  exists g, err, es. auto.
Defined.

(** ** The precision of the bits *)






(** ** The builder of the bits *)

Lemma halve_bit (val : float64) (start end_ : Q) :
  (halve val start end_).1.1 = "0"%char ∨ (halve val start end_).1.1 = "1"%char.
Proof. unfold halve. destruct (float_lt _ _); auto. Qed.

Lemma getBinaryBits_rec_output (n : nat) :
  ∀ (bits : string) val (start end_ : Q),
    (19 <= String.length bits + n)%nat →
    ∃ tail,
      getBinaryBits_rec n bits val start end_ = bits +:+ tail ∧
      String.length tail = Nat.max 1 (20 - String.length bits) ∧
      Forall (λ c, c = "0"%char ∨ c = "1"%char) (list_ascii_of_string tail).
Proof.
  induction n as [|n IH]; intros bits val start end_ Hn;
    cbn [getBinaryBits_rec]; pose proof (halve_bit val start end_) as Hb;
    destruct (halve val start end_) as [[b start'] end']; cbn [fst] in Hb;
    rewrite string_length_app; cbn [String.length];
    destruct (20 <=? _) eqn:Htest.
  - apply Z.leb_le in Htest. exists (String b "").
    split; [reflexivity|]. split; [simpl; lia|].
    constructor; [exact Hb | constructor].
  - apply Z.leb_gt in Htest. lia.
  - apply Z.leb_le in Htest. exists (String b "").
    split; [reflexivity|]. split; [simpl; lia|].
    constructor; [exact Hb | constructor].
  - apply Z.leb_gt in Htest.
    destruct (IH (bits +:+ String b "") val start' end') as (tail & -> & Hlen & Hall).
    { rewrite string_length_app. simpl. lia. }
    rewrite string_length_app in Hlen. simpl in Hlen.
    exists (String b tail). split; [apply string_app_assoc1|].
    split; [simpl; lia|]. constructor; assumption.
Qed.

(** X13.  [getBinaryBits] appends to the builder it is given and returns the
    whole of it: after the bytes already there come [max 1 (20 - k)] bytes,
    each ['0'] or ['1'], where [k] is the length the builder had.  With the
    fresh builder [GeoHash] passes that is 20 bits, for every float, NaN and
    the infinities included; a builder of 20 bytes or more still gets one. *)
Theorem getBinaryBits_output (bits : string) (val : float64) (start end_ : Q) :
  ∃ tail,
    getBinaryBits bits val start end_ = bits +:+ tail ∧
    String.length tail = Nat.max 1 (20 - String.length bits) ∧
    Forall (λ c, c = "0"%char ∨ c = "1"%char) (list_ascii_of_string tail).
Proof. unfold getBinaryBits. apply getBinaryBits_rec_output. lia. Qed.

(** ** Entries *)

(** X14.  [add] appends the point to the sequence kept under the code and
    touches no other code of the entry; [get] of a code the entry does not
    have, or of an entry whose map is nil, is empty; [add] leaves the field
    [Hash] as it is. *)
Theorem GeoEntry_add_get (g : GeoEntry) (p : Points) (hash hash' : string) :
  GeoEntry_get (GeoEntry_add g p hash) hash' =
    (if decide (hash = hash') then GeoEntry_get g hash ++ [p]
     else GeoEntry_get g hash') ∧
  Hash (GeoEntry_add g p hash) = Hash g ∧
  (Points_ g = None → GeoEntry_get g hash' = []).
Proof.
  split; [|split].
  - destruct (decide (hash = hash')) as [<-|Hne].
    + apply GeoEntry_get_add.
    + now apply GeoEntry_get_add_ne.
  - reflexivity.
  - unfold GeoEntry_get. now intros ->.
Qed.

(** ** The fresh index *)

Lemma get_from_newNode (c : ascii) (rest : string) :
  safe_code (String c rest) = true →
  get_from newNode (String c rest) = Ok (None, Some ErrInvalidHash).
Proof.
  intros [Hc _]%safe_code_cons. cbn [get_from].
  destruct (base32ToIndex c =? -1) eqn:Hidx; [reflexivity|].
  apply Z.eqb_neq in Hidx. pose proof (base32ToIndex_bounds c) as Hb.
  destruct (child_at_shape newNode (base32ToIndex c) eq_refl) as (slot & Hslot & _);
    [lia|].
  rewrite Hslot. apply at_index_Ok in Hslot as [_ Hl].
  unfold newNode in Hl. cbn [children] in Hl.
  apply lookup_replicate in Hl as [-> _]. reflexivity.
Qed.

(** X15.  On the index [NewTireTreeGeoService] returns, every code without
    the letters H..Z is unknown: [GeoPosition] and [FindByPrefix] return
    nothing and [GeoDel] returns [false] and leaves the index as it is, all
    with [ErrInvalidHash]; only the empty string is looked up without error
    (it leads to the root), and even it cannot be deleted. *)
Theorem fresh_index (hash : string) :
  safe_code hash = true →
  let err := if String.eqb hash "" then None else Some ErrInvalidHash in
  GeoPosition NewTireTreeGeoService hash = Ok ([], err) ∧
  FindByPrefix NewTireTreeGeoService hash = Ok ([], err, []) ∧
  GeoDel NewTireTreeGeoService hash =
    Ok (NewTireTreeGeoService, (false, Some ErrInvalidHash)).
Proof.
  intros Hsafe. destruct hash as [|c rest]; [repeat split|].
  unfold GeoPosition, FindByPrefix, GeoDel, get, NewTireTreeGeoService.
  cbn [root]. rewrite (get_from_newNode _ _ Hsafe). repeat split.
Qed.

Lemma fresh_index_witness :
  GeoPosition NewTireTreeGeoService "9C8FFG8F" = Ok ([], Some ErrInvalidHash).
Proof. apply (fresh_index "9C8FFG8F"). reflexivity. Defined.

(** ** The field Hash *)

Lemma blank_eq (g : geoTireNode) :
  blank g = true ↔
  Hash (entry g) = "" ∧ forallb (optb blank) (children g) = true.
Proof.
  destruct g as [cs n e en]. cbn [blank entry children]. fold (optb blank).
  rewrite andb_true_iff, String.eqb_eq. reflexivity.
Qed.

Lemma blank_set_child (g : geoTireNode) (i : Z) (o : option geoTireNode) :
  blank g = true → optb blank o = true → blank (set_child g i o) = true.
Proof.
  rewrite !blank_eq. simpl. intros [Hh Hall] Ho. split; [assumption|].
  now apply forallb_insert.
Qed.

Lemma blank_same (g g' : geoTireNode) :
  children g' = children g → Hash (entry g') = Hash (entry g) →
  blank g = true → blank g' = true.
Proof. rewrite !blank_eq. now intros -> ->. Qed.

Lemma child_at_blank (g : geoTireNode) (i : Z) slot :
  blank g = true → child_at g i = Ok slot → optb blank slot = true.
Proof.
  intros [_ Hall]%blank_eq [_ Hl]%at_index_Ok.
  apply (forallb_lookup _ _ _ _ Hall Hl).
Qed.

Lemma add_walk_blank (points : Points) (geoHash : string) (rest : string) :
  ∀ move move', blank move = true →
  add_walk move rest points geoHash = Ok move' → blank move' = true.
Proof.
  induction rest as [|c rest IH]; intros move move' Hb; cbn [add_walk].
  - intros [= <-]. eapply blank_same; [| |exact Hb]; reflexivity.
  - destruct (child_at move (base32ToIndex c)) as [slot|] eqn:Hslot;
      cbn [mbind result_bind]; [|discriminate].
    destruct (add_walk _ rest points geoHash) as [ch'|] eqn:Hwalk;
      cbn [mbind result_bind]; [|discriminate].
    intros [= <-]. apply blank_set_child; [assumption|]. simpl.
    refine (IH _ _ _ Hwalk).
    pose proof (child_at_blank _ _ _ Hb Hslot) as Hs.
    destruct slot as [ch|]; [|reflexivity].
    eapply blank_same; [| |exact Hs]; reflexivity.
Qed.

Lemma del_walk_blank (hash : string) :
  ∀ move move', blank move = true →
  del_walk move hash = Ok move' → blank move' = true.
Proof.
  induction hash as [|c rest IH]; intros move move' Hb; cbn [del_walk].
  - intros [= <-]. eapply blank_same; [| |exact Hb]; reflexivity.
  - destruct (child_at move (base32ToIndex c)) as [[ch|]|] eqn:Hslot;
      cbn [mbind result_bind]; try discriminate.
    pose proof (child_at_blank _ _ _ Hb Hslot) as Hs. simpl in Hs.
    destruct (passCnt _ =? 0).
    + intros [= <-]. now apply blank_set_child.
    + destruct (del_walk _ rest) as [ch'|] eqn:Hwalk; cbn [mbind result_bind];
        [|discriminate].
      intros [= <-]. apply blank_set_child; [assumption|]. simpl.
      refine (IH _ _ _ Hwalk).
      eapply blank_same; [| |exact Hs]; reflexivity.
Qed.

Lemma update_target_blank (f : geoTireNode -> geoTireNode) (hash : string) :
  (∀ g, children (f g) = children g ∧ Hash (entry (f g)) = Hash (entry g)) →
  ∀ move, blank move = true → blank (update_target move hash f) = true.
Proof.
  intros Hf. induction hash as [|c rest IH]; intros move Hb; cbn [update_target].
  - destruct (Hf move). eapply blank_same; eassumption.
  - destruct (children move !! Z.to_nat (base32ToIndex c)) as [[ch|]|] eqn:Hl;
      try assumption.
    pose proof Hb as [_ Hall]%blank_eq.
    apply blank_set_child; [assumption|]. simpl. apply IH.
    apply (forallb_lookup _ _ _ _ Hall Hl).
Qed.

Lemma built_blank (n : nat) t : built n t → blank (root t) = true.
Proof.
  induction 1 as [|t points geoHash t' r _ Hb _ Hadd|t hash t' r _ Hb Hdel].
  - reflexivity.
  - revert Hadd. unfold GeoAdd_locked, get.
    destruct (get_from (root t) geoHash) as [[target e]|];
      cbn [mbind result_bind]; [|discriminate].
    destruct (match target with Some tg => end_ tg | None => false end).
    + intros [= <- <-]. cbn [root]. apply update_target_blank; [|exact Hb].
      intros g. split; reflexivity.
    + destruct (add_walk _ _ _ _) as [r0|] eqn:Hwalk; cbn [mbind result_bind];
        [|discriminate].
      intros [= <- <-]. cbn [root]. eapply add_walk_blank; eassumption.
  - revert Hdel. unfold GeoDel, get.
    destruct (get_from (root t) hash) as [[target [e|]]|];
      cbn [mbind result_bind]; try discriminate.
    + now intros [= <- <-].
    + destruct target as [tg|]; [|now intros [= <- <-]].
      destruct (end_ tg); cbn [negb]; [|now intros [= <- <-]].
      destruct (del_walk (root t) hash) as [r0|] eqn:Hwalk;
        cbn [mbind result_bind]; [|discriminate].
      intros [= <- <-]. cbn [root]. eapply del_walk_blank; eassumption.
Qed.

Lemma walk_idx_blank (p : list nat) :
  ∀ g tg, blank g = true → walk_idx g p = Some tg → blank tg = true.
Proof.
  induction p as [|i q IH]; intros g tg Hb; simpl.
  - now intros [= <-].
  - destruct (children g !! i) as [[c|]|] eqn:Hl; try discriminate.
    apply IH. apply blank_eq in Hb as [_ Hall].
    apply (forallb_lookup _ _ _ _ Hall Hl).
Qed.

(** X16.  No operation ever assigns the field [Hash] of an entry: in every
    trie the operations build, each entry [FindByPrefix] returns has the
    empty string as its [Hash], so an entry does not tell which code it
    belongs to. *)
Theorem Hash_never_set (n : nat) t prefix es err log :
  built n t → FindByPrefix t prefix = Ok (es, err, log) →
  ∀ e, e ∈ es → Hash e = "".
Proof.
  intros Hb%built_blank. unfold FindByPrefix, get.
  destruct (get_from (root t) prefix) as [[target e0]|] eqn:Hget;
    cbn [mbind result_bind]; [|discriminate].
  destruct (get_from_cases _ _ _ _ Hget) as [(tg & -> & ->)|[-> ->]].
  - destruct (dfs_paths tg) as (es' & Hdfs & Hes). rewrite Hdfs.
    intros [= <- <- <-] e He.
    assert (Hin : Some e ∈ Some <$> es') by (apply list_elem_of_fmap; eauto).
    rewrite Hes in Hin. apply list_elem_of_fmap in Hin as (p & Hp & _).
    destruct (walk_idx tg p) as [x|] eqn:Hw; [|discriminate].
    injection Hp as ->.
    pose proof (get_from_walk_idx _ _ _ _ Hget) as Hroot.
    pose proof (walk_idx_blank _ _ _ Hb Hroot) as Htg.
    pose proof (walk_idx_blank _ _ _ Htg Hw) as Hx.
    now apply blank_eq in Hx as [Hx _].
  - intros [= <- <- <-] e He. now apply elem_of_nil in He.
Qed.

Lemma built_trie_two_codes : built 8 trie_two_codes.
Proof.
  apply (built_add 8 trie_one_code p1 "9C8FFG00" trie_two_codes
           (true, Some ErrInvalidHash)).
  - apply (built_add 8 NewTireTreeGeoService origin "9C8FFG8F" trie_one_code
             (true, Some ErrInvalidHash)).
    + apply built_new.
    + reflexivity.
    + vm_compute. reflexivity.
  - reflexivity.
  - vm_compute. reflexivity.
Qed.

Lemma Hash_never_set_witness :
  ∃ es, FindByPrefix trie_two_codes "9C" = Ok (es, None, []) ∧
        length es = 2%nat ∧ ∀ e, e ∈ es → Hash e = "".
Proof.
  assert (Hf : ∃ es, FindByPrefix trie_two_codes "9C" = Ok (es, None, []) ∧
                     length es = 2%nat)
    by (vm_compute; eexists; split; reflexivity).
  destruct Hf as (es & Hf & Hlen). exists es. split; [exact Hf|].
  split; [exact Hlen|].
  apply (Hash_never_set 8 trie_two_codes "9C" es None []);
    [apply built_trie_two_codes | exact Hf].
Defined.

(** ** Prefix search and lookup *)

Lemma get_from_app (pre suf : string) :
  ∀ move,
    get_from move (pre +:+ suf) =
    '(target, err) ← get_from move pre;
    match target with
    | Some g => get_from g suf
    | None => Ok (None, err)
    end.
Proof.
  induction pre as [|c pre IH]; intros move; [reflexivity|].
  rewrite string_app_cons. cbn [get_from].
  destruct (base32ToIndex c =? -1); [reflexivity|].
  destruct (child_at move (base32ToIndex c)) as [[ch|]|];
    cbn [mbind result_bind]; [apply IH | reflexivity | reflexivity].
Qed.

(** X17.  A prefix search finds what a lookup finds: when a code is stored,
    [FindByPrefix] of any prefix of it returns, without error, a list that
    contains the entry of the code, and that entry holds, under the code,
    exactly the points [GeoPosition] returns for it. *)
Theorem FindByPrefix_complete t (pre suf : string) :
  stored t (pre +:+ suf) = true →
  ∃ pts es e,
    GeoPosition t (pre +:+ suf) = Ok (pts, None) ∧
    FindByPrefix t pre = Ok (es, None, []) ∧
    e ∈ es ∧ GeoEntry_get e (pre +:+ suf) = pts.
Proof.
  intros (tg & Hget & Hend)%terminal_at_true_get.
  unfold GeoPosition, FindByPrefix, get. rewrite Hget.
  cbn [mbind result_bind]. rewrite Hend. cbn [negb].
  rewrite get_from_app in Hget.
  destruct (get_from (root t) pre) as [[[g|] e0]|] eqn:Hpre;
    cbn [mbind result_bind] in Hget; try discriminate.
  destruct (get_from_cases _ _ _ _ Hpre) as [(? & _ & ->)|[[=] _]].
  cbn [mbind result_bind].
  destruct (dfs_paths g) as (es & -> & Hes).
  exists (GeoEntry_get (entry tg) (pre +:+ suf)), es, (entry tg).
  split; [reflexivity|]. split; [reflexivity|]. split; [|reflexivity].
  assert (Hin : Some (entry tg) ∈ Some <$> es).
  { rewrite Hes. apply list_elem_of_fmap. exists (code_path suf). split.
    - now rewrite (get_from_walk_idx _ _ _ _ Hget).
    - apply terminal_at_in_paths. unfold terminal_at. now rewrite Hget. }
  apply list_elem_of_fmap in Hin as (y & [= ->] & Hy). exact Hy.
Qed.

Lemma FindByPrefix_complete_witness :
  ∃ pts es e,
    GeoPosition trie_two_codes ("9C8F" +:+ "FG00") = Ok (pts, None) ∧
    FindByPrefix trie_two_codes "9C8F" = Ok (es, None, []) ∧
    e ∈ es ∧ GeoEntry_get e ("9C8F" +:+ "FG00") = pts.
Proof.
  apply (FindByPrefix_complete trie_two_codes "9C8F" "FG00").
  vm_compute. reflexivity.
Defined.

(** ** What the exported operations can reach *)

Lemma get_from_newNode_None (c : ascii) (rest : string) target err :
  get_from newNode (String c rest) = Ok (target, err) → target = None.
Proof.
  cbn [get_from]. destruct (base32ToIndex c =? -1); [now intros [= <- _]|].
  destruct (child_at newNode (base32ToIndex c)) as [slot|] eqn:Hslot;
    cbn [mbind result_bind]; [|discriminate].
  apply at_index_Ok in Hslot as [_ Hl]. unfold newNode in Hl.
  cbn [children] in Hl. apply lookup_replicate in Hl as [-> _].
  now intros [= <- _].
Qed.

Lemma GeoDel_fresh hash t' r :
  GeoDel NewTireTreeGeoService hash = Ok (t', r) → t' = NewTireTreeGeoService.
Proof.
  destruct hash as [|c rest]; [now intros [= <- _]|].
  unfold GeoDel, get, NewTireTreeGeoService. cbn [root].
  destruct (get_from newNode (String c rest)) as [[target err]|] eqn:Hget;
    cbn [mbind result_bind]; [|discriminate].
  apply get_from_newNode_None in Hget as ->.
  destruct err; now intros [= <- _].
Qed.

Lemma GeoPosition_fresh hash pts err :
  GeoPosition NewTireTreeGeoService hash = Ok (pts, err) → pts = [].
Proof.
  destruct hash as [|c rest]; [now intros [= <- _]|].
  unfold GeoPosition, get, NewTireTreeGeoService. cbn [root].
  destruct (get_from newNode (String c rest)) as [[target e]|] eqn:Hget;
    cbn [mbind result_bind]; [|discriminate].
  apply get_from_newNode_None in Hget as ->.
  destruct e; now intros [= <- _].
Qed.

(** X18.  Through the exported operations the index stays empty: [GeoAdd]
    panics in [GeoHash] before it reads or writes the trie, and [GeoDel]
    finds nothing to delete, so every state a caller can reach is the fresh
    index, and no [GeoPosition] on it ever returns a point. *)
Theorem exported_index_stays_empty t :
  reachable t →
  t = NewTireTreeGeoService ∧
  ∀ hash pts err, GeoPosition t hash = Ok (pts, err) → pts = [].
Proof.
  intros Hr.
  assert (Ht : t = NewTireTreeGeoService).
  { induction Hr as [|t points t' r _ _ Hadd|t hash t' r _ -> Hdel].
    - reflexivity.
    - unfold GeoAdd, GeoHash in Hadd. rewrite GeoHash_loop_first in Hadd.
      discriminate.
    - eapply GeoDel_fresh, Hdel. }
  subst t. split; [reflexivity|]. apply GeoPosition_fresh.
Qed.

Lemma exported_index_stays_empty_witness :
  after NewTireTreeGeoService (GeoDel NewTireTreeGeoService "0") =
  NewTireTreeGeoService.
Proof.
  apply (exported_index_stays_empty
           (after NewTireTreeGeoService (GeoDel NewTireTreeGeoService "0"))).
  apply (reachable_del NewTireTreeGeoService "0" _ (false, Some ErrInvalidHash)).
  - apply reachable_new.
  - vm_compute. reflexivity.
Defined.

(** ** The error of a successful insertion *)

(** X19.  For a code of digits and letters B..G the insertion returns
    [true], and the error beside it is nil exactly when the whole path of
    the code was in the trie before the call; whenever the insertion has to
    create a node it returns [true] together with [ErrInvalidHash]. *)
Theorem GeoAdd_locked_error t points geoHash :
  shape (root t) = true → usable_code geoHash = true →
  ∃ t', GeoAdd_locked t points geoHash =
        Ok (t', (true, match walk_idx (root t) (code_path geoHash) with
                       | Some _ => None
                       | None => Some ErrInvalidHash
                       end)).
Proof.
  intros Hshape Hus. unfold GeoAdd_locked, get.
  rewrite (get_from_safe _ _ Hshape (usable_safe _ Hus)).
  rewrite (usable_all_symbols _ Hus). cbn [mbind result_bind].
  destruct (add_walk_total points geoHash geoHash (root t) Hshape Hus)
    as [r0 Hwalk].
  destruct (walk_idx (root t) (code_path geoHash)) as [tg|].
  - destruct (end_ tg); [eauto|]. rewrite Hwalk. cbn [mbind result_bind]. eauto.
  - rewrite Hwalk. cbn [mbind result_bind]. eauto.
Qed.

Lemma GeoAdd_locked_error_witness :
  ∃ t', GeoAdd_locked trie_0B_0 p2 "0C" = Ok (t', (true, Some ErrInvalidHash)).
Proof.
  apply (GeoAdd_locked_error trie_0B_0 p2 "0C"); vm_compute; reflexivity.
Defined.

